(** * simple-http-client: the dispatch engine of [main.go]

    A shallow embedding of [main.go]: the line scanner and [strconv.Atoi]
    as functions on strings, the file system as a finite map from paths
    to file contents, [appendToFile], [removeLine] and [doRequest] as
    state-passing functions, and [main] with its goroutines as an
    interleaving step function over channels and a wait group. *)

From Stdlib Require Import ZArith Lia Ascii String List.
From stdpp Require Import base option list strings gmap.

#[local] Set Warnings "-register-all,-clear-no-such-hyp".
Local Open Scope string_scope.
Local Open Scope list_scope.
Local Open Scope nat_scope.

(** ** Bytes and lines *)

Definition LF : ascii := "010"%char.
Definition CR : ascii := "013"%char.
Definition newline : string := String LF "".

(** [bufio.dropCR]: one trailing carriage return is dropped. *)
Fixpoint dropCR (data : string) : string :=
  match data with
  | "" => ""
  | String c "" => if decide (c = CR) then "" else data
  | String c rest => String c (dropCR rest)
  end.

(** The split function [bufio.ScanLines] run to the end of the input:
    [line] is the part of the current line read so far. A line ends at a
    newline; a last line without one is a token when it is not empty.
    These tokens are what "a line of the file" means below: the text up
    to a newline, less one carriage return before it. *)
Fixpoint scanTokens (line data : string) : list string :=
  match data with
  | "" => if decide (line = "") then [] else [dropCR line]
  | String c rest =>
      if decide (c = LF) then dropCR line :: scanTokens "" rest
      else scanTokens (line +:+ String c "") rest
  end.

Definition scanLines (data : string) : list string := scanTokens "" data.

(** [bufio.MaxScanTokenSize]: the buffer of a [bufio.Scanner] grows to
    64 KiB and no further. *)
Definition maxScanTokenSize : Z := 65536.

(** The text of a line, carriage return included, fits the buffer
    together with the newline that ends it. *)
Definition fits (line : string) : Prop :=
  (Z.of_nat (String.length line) < maxScanTokenSize)%Z.

#[global] Instance fits_dec (line : string) : Decision (fits line) :=
  decide_rel Z.lt (Z.of_nat (String.length line)) maxScanTokenSize.

(** [bufio.Scanner.Scan] called until it returns [false], on input that
    is read without error: the tokens delivered, and whether the scanner
    stopped with [bufio.ErrTooLong]. It does when the buffer is full and
    holds no newline, that is, at the first line of 64 KiB or more; the
    lines before it have been delivered. *)
Fixpoint scan (line data : string) : list string * bool :=
  match data with
  | "" =>
      if decide (line = "") then ([], false)
      else if decide (fits line) then ([dropCR line], false) else ([], true)
  | String c rest =>
      if decide (c = LF) then
        if decide (fits line)
        then let '(tokens, long) := scan "" rest in (dropCR line :: tokens, long)
        else ([], true)
      else scan (line +:+ String c "") rest
  end.

(** The first [k] bytes of a file. *)
Fixpoint firstBytes (k : nat) (data : string) : string :=
  match k, data with
  | S k, String c rest => String c (firstBytes k rest)
  | _, _ => ""
  end.

(** What [n] calls of [WriteString(fmt.Sprintf("%s\n", line))] leave in a
    file. *)
Fixpoint render (lines : list string) : string :=
  match lines with
  | [] => ""
  | line :: rest => line +:+ newline +:+ render rest
  end.

(** [unicode.IsSpace] on ASCII bytes, the characters [strings.TrimSpace]
    would cut. *)
Definition isSpace (c : ascii) : bool :=
  let n := nat_of_ascii c in
  ((9 <=? n)%nat && (n <=? 13)%nat) || (n =? 32)%nat.

Fixpoint allSpace (s : string) : bool :=
  match s with
  | "" => true
  | String c rest => isSpace c && allSpace rest
  end.

(** ** [strconv.Atoi] on a 64-bit platform *)

Definition digitVal (c : ascii) : option Z :=
  let n := nat_of_ascii c in
  if (48 <=? n)%nat && (n <=? 57)%nat then Some (Z.of_nat n - 48)%Z else None.

Fixpoint parseDigits (s : string) (n : Z) : option Z :=
  match s with
  | "" => Some n
  | String ch rest =>
      match digitVal ch with
      | Some d => parseDigits rest (n * 10 + d)%Z
      | None => None
      end
  end.

Definition minInt : Z := (- 2 ^ 63)%Z.
Definition maxInt : Z := (2 ^ 63 - 1)%Z.

Definition Atoi (s : string) : option Z :=
  match s with
  | "" => None
  | String c rest =>
      let neg := bool_decide (c = "-"%char) in
      let digits :=
        if bool_decide (c = "-"%char) || bool_decide (c = "+"%char)
        then rest else s in
      match digits with
      | "" => None
      | _ =>
          match parseDigits digits 0 with
          | Some n =>
              let v := if neg then (- n)%Z else n in
              if bool_decide (minInt ≤ v ≤ maxInt)%Z then Some v else None
          | None => None
          end
      end
  end.

(** ** Data model *)

Inductive json :=
| JNull
| JBool (b : bool)
| JNumber (n : Z)
| JString (s : string)
| JArray (elems : list json)
| JObject (fields : list (string * json)).

(** [type IResult map[string]interface{}] *)
Definition IResult := list (string * json).

Record ISubscribePayload := {
  Offer : string;
  Account : string;
  RebootAfterNextTrip : bool
}.

Record ISubscribeRequest := {
  BaseURL : string;
  Payload : ISubscribePayload
}.

Record IGetTokenRequest := {
  AuthBaseURL : string;
  GrantType : string;
  Username : string;
  Password : string
}.

Record IWorkerParams := {
  Url : string;
  Method : string;
  Imei : string;
  WorkPayload : ISubscribePayload;
  Token : string;
  Path : string
}.

(** Go errors, by the operation that produced them. [ErrWrap msg err] is
    [fmt.Errorf(msg + ": %w", err)]. *)
Inductive error :=
| ErrOpen (path : string)
| ErrCreate (path : string)
| ErrTooLong                        (* bufio.ErrTooLong *)
| ErrRead                           (* a read of an open file fails *)
| ErrWrite (path : string)
| ErrInvalid                        (* os.ErrInvalid: a nil [*os.File] *)
| ErrRename (src dst : string)
| ErrAtoi (s : string)
| ErrMarshal
| ErrNewRequest
| ErrClientDo (timeout : bool)
| ErrDecode
| ErrUnexpectedResponse (status : string)
| ErrWrap (msg : string) (err : error).

(** [os.IsTimeout] *)
Definition IsTimeout (err : error) : bool :=
  match err with
  | ErrClientDo timeout => timeout
  | _ => false
  end.

(** [IJsonResult]: [None] is Go's [nil]. *)
Record IJsonResult := {
  err : option error;
  value : option IResult
}.

(** ** The world outside the goroutines *)

Inductive message :=
| MsgText (s : string)
| MsgError (e : error)
| MsgValue (v : option IResult).

(** What the process does to its surroundings, newest event first. *)
Inductive event :=
| EvPrintln (m : message)          (* fmt.Println *)
| EvLog (e : error)                (* log.Println *)
| EvFatal                          (* log.Fatalf in getSecrets *)
| EvTokenRequest                   (* client.Do in getToken *)
| EvSubscribe (url token : string) (* client.Do in doRequest *)
| EvAppend (path content : string) (* WriteString in appendToFile *)
| EvReplace (path : string)        (* os.Rename in removeLine *)
| EvDecodeBody.                    (* Decode in doRequest *)

Record os := Os {
  files : gmap string string;
  events : list event
}.

Definition emit (e : event) (o : os) : os :=
  {| files := files o; events := e :: events o |}.

Definition failedLog : string := "./failed.txt".

(** A scanner over an open file. [read_fails = Some k]: the reads fail
    after [k] bytes. The scanner then still delivers what it holds, a
    last line without its end included, and [scanner.Err()] is the read
    error, unless the buffer had filled up before. *)
Definition scanFile (read_fails : option nat) (data : string)
  : list string * option error :=
  let readable :=
    match read_fails with
    | Some k => firstBytes k data
    | None => data
    end in
  let '(tokens, long) := scan "" readable in
  (tokens,
   if long then Some ErrTooLong
   else match read_fails with
        | Some _ => Some ErrRead
        | None => None
        end).

(** What the operating system answers [appendToFile]: [os.OpenFile]
    fails, or [WriteString] fails after [written] bytes, or neither. *)
Inductive append_fault :=
| AppendOk
| AppendOpenFails
| AppendWriteFails (written : nat).

(** [appendToFile]: the file is opened with [O_APPEND|O_CREATE|O_WRONLY],
    so a missing file is created. Both error branches only log, and
    nothing is returned to the caller. When [os.OpenFile] fails the
    function does not return: [file] is [nil], and [WriteString] on it
    fails with [os.ErrInvalid], which is logged too. *)
Definition appendToFile (fault : append_fault) (path content : string) (o : os)
  : os :=
  match fault with
  | AppendOpenFails => emit (EvLog ErrInvalid) (emit (EvLog (ErrOpen path)) o)
  | AppendWriteFails written =>
      {| files := <[path := default "" (files o !! path)
                             +:+ firstBytes written (content +:+ newline)]> (files o);
         events := EvLog (ErrWrite path) :: events o |}
  | AppendOk =>
      {| files := <[path := default "" (files o !! path) +:+ content +:+ newline]>
                    (files o);
         events := EvAppend path content :: events o |}
  end.

(** I/O failures the operating system may answer [removeLine] with:
    [os.Open] on an existing file, [os.Create], a read of the queue
    file after [scan_fails = Some k] bytes, and [os.Rename]. *)
Record io_faults := {
  open_fails : bool;
  create_fails : bool;
  scan_fails : option nat;
  rename_fails : bool
}.

Definition no_faults : io_faults :=
  {| open_fails := false; create_fails := false;
     scan_fails := None; rename_fails := false |}.

(** The loop [for scanner.Scan() { if line != content { out.WriteString } }]
    over the lines the scanner delivers; [out] is what the temporary
    file holds so far. *)
Fixpoint scanLoop (content : string) (lines : list string) (out : string) : string :=
  match lines with
  | [] => out
  | line :: rest =>
      if decide (line ≠ content)
      then scanLoop content rest (out +:+ line +:+ newline)
      else scanLoop content rest out
  end.

Definition removeLine (io : io_faults) (path content : string) (o : os)
  : os * option error :=
  match files o !! path with
  | None => (o, Some (ErrOpen path))
  | Some data =>
      if open_fails io then (o, Some (ErrOpen path)) else
      let tmpName := path +:+ "~tmp" in
      if create_fails io then (o, Some (ErrCreate tmpName)) else
      let '(delivered, failure) := scanFile (scan_fails io) data in
      let written := scanLoop content delivered "" in
      let o1 := {| files := <[tmpName := written]> (files o);
                   events := events o |} in
      match failure with
      | Some err => (o1, Some err)
      | None =>
          if rename_fails io then (o1, Some (ErrRename tmpName path)) else
          ({| files := delete tmpName (<[path := written]> (files o1));
              events := EvReplace path :: events o1 |}, None)
      end
  end.

(** What the network answers one [client.Do]. [BodyJSON] is what
    decoding the body as a JSON object gives, [None] when it fails. *)
Record response := {
  StatusCode : Z;
  Status : string;
  BodyJSON : option IResult
}.

Inductive do_outcome :=
| DoError (timeout : bool)
| DoResponse (res : response).

(** The surroundings' answers to one call of [doRequest]. *)
Record req_env := {
  marshal_fails : bool;
  newrequest_fails : bool;
  client_do : do_outcome;
  append : append_fault;
  io : io_faults
}.

Definition doRequest (env : req_env) (params : IWorkerParams) (o : os)
  : os * (error + IResult) :=
  if marshal_fails env
  then (o, inl (ErrWrap "encoding payload to json" ErrMarshal)) else
  if newrequest_fails env
  then (o, inl (ErrWrap "creating new request" ErrNewRequest)) else
  let o := emit (EvSubscribe (Url params) (Token params)) o in
  match client_do env with
  | DoError timeout =>
      let err := ErrClientDo timeout in
      let o := if IsTimeout err
               then appendToFile (append env) failedLog (Imei params) o else o in
      (o, inl (ErrWrap "performing request" err))
  | DoResponse res =>
      if decide (StatusCode res ≠ 200%Z)
      then (appendToFile (append env) failedLog (Imei params) o,
            inl (ErrUnexpectedResponse (Status res)))
      else
        match removeLine (io env) (Path params) (Imei params) o with
        | (o, Some err) => (o, inl (ErrWrap "removing line from text file" err))
        | (o, None) =>
            let o := emit EvDecodeBody o in
            match BodyJSON res with
            | None => (o, inl (ErrWrap "decoding json response" ErrDecode))
            | Some result => (o, inr result)
            end
        end
  end.

(** The spec's names for the failures of one work item, read off the
    error value [doRequest] returns. A failure of [http.NewRequest] has
    no name in the spec. *)
Inductive failure :=
| EncodingError
| RequestCreationError
| TransportError
| TimeoutError
| UnexpectedStatus
| QueueMutationError
| DecodingError.

Definition classify (e : error) : option failure :=
  match e with
  | ErrUnexpectedResponse _ => Some UnexpectedStatus
  | ErrWrap _ ErrMarshal => Some EncodingError
  | ErrWrap _ ErrNewRequest => Some RequestCreationError
  | ErrWrap _ (ErrClientDo timeout) =>
      Some (if timeout then TimeoutError else TransportError)
  | ErrWrap _ ErrDecode => Some DecodingError
  | ErrWrap _ (ErrOpen _ | ErrCreate _ | ErrTooLong | ErrRead | ErrRename _ _) =>
      Some QueueMutationError
  | _ => None
  end.


(** A line free of newlines, as every scanned line is. *)
Fixpoint noLF (s : string) : bool :=
  match s with
  | "" => true
  | String c rest => negb (bool_decide (c = LF)) && noLF rest
  end.

(** A line as [render] must have written it for the scanner to read it
    back: no newline inside, no carriage return at its end. *)
Definition cleanLine (line : string) : Prop :=
  noLF line = true ∧ dropCR line = line.

(** [line] is [content] with white space added in front or behind. *)
Definition paddedWith (content line : string) : Prop :=
  ∃ pre post, line = pre +:+ content +:+ post ∧
    allSpace pre = true ∧ allSpace post = true ∧ (pre ≠ "" ∨ post ≠ "").


(** ** Start-up collaborators of [main] *)

(** [readFile]. [read_error = Some k]: the reads of the file fail after
    [k] bytes. The lines scanned so far are returned with the error. *)
Definition readFile (read_error : option nat) (path : string) (o : os)
  : list string * option error :=
  match files o !! path with
  | None => ([], Some (ErrOpen path))
  | Some data => scanFile read_error data
  end.

(** What the token endpoint and the steps around it answer [getToken]. *)
Inductive token_outcome :=
| TokenMarshalError
| TokenNewRequestError
| TokenDoError (timeout : bool)
| TokenDecodeError
| TokenOk (access_token : string).

Definition getToken (svc : token_outcome) (cred : IGetTokenRequest) (o : os)
  : os * (error + string) :=
  match svc with
  | TokenMarshalError =>
      (emit (EvPrintln (MsgError ErrMarshal)) o, inl ErrMarshal)
  | TokenNewRequestError => (o, inl ErrNewRequest)
  | TokenDoError timeout =>
      let o := emit EvTokenRequest o in
      (emit (EvPrintln (MsgError (ErrClientDo timeout))) o,
       inl (ErrClientDo timeout))
  | TokenDecodeError => (emit EvTokenRequest o, inl ErrDecode)
  | TokenOk access_token => (emit EvTokenRequest o, inr access_token)
  end.

(** Everything [main] is given: the command line, the files on disk, and
    the answers of the reads of [readFile], [getSecrets] ([None]: the
    environment file cannot be loaded) and the token endpoint. Every
    network call returns: the subscribe client has a timeout, the token
    client is taken to be answered. *)
Record world := {
  args : list string;
  disk : gmap string string;
  read_error : option nat;
  secrets : option (ISubscribeRequest * IGetTokenRequest);
  token_service : token_outcome
}.

(** ** Channels and the wait group *)

Record chan (A : Type) := Chan {
  buf : list A;
  cap : nat;
  closed : bool
}.
Arguments Chan {A} _ _ _.
Arguments buf {A} _.
Arguments cap {A} _.
Arguments closed {A} _.

Inductive attempt (A : Type) :=
| Ready (a : A)
| Blocked
| Panic.
Arguments Ready {A} _.
Arguments Blocked {A}.
Arguments Panic {A}.

Definition make {A : Type} (n : nat) : chan A :=
  {| buf := []; cap := n; closed := false |}.

(** [c <- x]. A send waits while the buffer is full; on a channel of
    capacity 0 it waits for a receiver, which this model never grants
    ([main] makes such channels only when it has nothing to send). *)
Definition send {A : Type} (x : A) (c : chan A) : attempt (chan A) :=
  if closed c then Panic
  else if decide (length (buf c) < cap c)
       then Ready {| buf := buf c ++ [x]; cap := cap c; closed := closed c |}
       else Blocked.

(** One round of [for x := range c]: [Some x] is the next element,
    [None] the end of the loop on a closed and drained channel. *)
Definition recv {A : Type} (c : chan A) : attempt (option A * chan A) :=
  match buf c with
  | x :: rest => Ready (Some x, {| buf := rest; cap := cap c; closed := closed c |})
  | [] => if closed c then Ready (None, c) else Blocked
  end.

Definition close {A : Type} (c : chan A) : attempt (chan A) :=
  if closed c then Panic
  else Ready {| buf := buf c; cap := cap c; closed := true |}.

(** ** The goroutines *)

(** Where [main] stands; the constructors carry the locals still in use. *)
Inductive main_pc :=
| MStart
| MSpawn (i : Z)
| MSecrets
| MToken (subscribePayload : ISubscribeRequest) (tokenPayload : IGetTokenRequest)
| MGo (subscribePayload : ISubscribeRequest) (token : string)
| MEnqueue (subscribePayload : ISubscribeRequest) (token : string) (rest : list string)
| MCloseWork
| MDrain
| MDone.

(** Where one [doWork] stands. *)
Inductive worker_pc :=
| WRange
| WRequest (params : IWorkerParams)
| WSend (result : IJsonResult)
| WReturned.

(** A [doWork] goroutine. [consumed] and [emitted] count the work items
    it has received and the results it has sent; they are history
    variables, the code does not keep them. *)
Record worker := {
  wpc : worker_pc;
  consumed : nat;
  emitted : nat
}.

(** The goroutine [go func() { wg.Wait(); close(results) }()]. *)
Inductive closer_pc :=
| CWait
| CClose
| CReturned.

Inductive exit_reason :=
| ExitUsage
| ExitReadFile
| ExitAtoi
| ExitFatal
| ExitToken
| ExitDone
| ExitPanic.

Record state := {
  pc : main_pc;
  assets : list string;
  workers : Z;
  source : string;
  work : chan IWorkerParams;
  results : chan IJsonResult;
  wg : Z;
  pool : list worker;
  closer : option closer_pc;
  sys : os;
  exited : option exit_reason
}.

Definition init (w : world) : state :=
  {| pc := MStart; assets := []; workers := 0; source := "";
     work := make 0; results := make 0; wg := 0; pool := []; closer := None;
     sys := {| files := disk w; events := [] |}; exited := None |}.

Definition with_pc (p : main_pc) (s : state) : state :=
  {| pc := p; assets := assets s; workers := workers s; source := source s;
     work := work s; results := results s; wg := wg s; pool := pool s;
     closer := closer s; sys := sys s; exited := exited s |}.

Definition with_work (c : chan IWorkerParams) (s : state) : state :=
  {| pc := pc s; assets := assets s; workers := workers s; source := source s;
     work := c; results := results s; wg := wg s; pool := pool s;
     closer := closer s; sys := sys s; exited := exited s |}.

Definition with_results (c : chan IJsonResult) (s : state) : state :=
  {| pc := pc s; assets := assets s; workers := workers s; source := source s;
     work := work s; results := c; wg := wg s; pool := pool s;
     closer := closer s; sys := sys s; exited := exited s |}.

Definition with_wg (n : Z) (s : state) : state :=
  {| pc := pc s; assets := assets s; workers := workers s; source := source s;
     work := work s; results := results s; wg := n; pool := pool s;
     closer := closer s; sys := sys s; exited := exited s |}.

Definition with_pool (p : list worker) (s : state) : state :=
  {| pc := pc s; assets := assets s; workers := workers s; source := source s;
     work := work s; results := results s; wg := wg s; pool := p;
     closer := closer s; sys := sys s; exited := exited s |}.

Definition with_closer (c : option closer_pc) (s : state) : state :=
  {| pc := pc s; assets := assets s; workers := workers s; source := source s;
     work := work s; results := results s; wg := wg s; pool := pool s;
     closer := c; sys := sys s; exited := exited s |}.

Definition with_sys (o : os) (s : state) : state :=
  {| pc := pc s; assets := assets s; workers := workers s; source := source s;
     work := work s; results := results s; wg := wg s; pool := pool s;
     closer := closer s; sys := o; exited := exited s |}.

(** The process ends: [main] returns, [log.Fatalf] exits, or a goroutine
    panics. *)
Definition exit (r : exit_reason) (s : state) : state :=
  {| pc := pc s; assets := assets s; workers := workers s; source := source s;
     work := work s; results := results s; wg := wg s; pool := pool s;
     closer := closer s; sys := sys s; exited := Some r |}.

Definition println (m : message) (s : state) : state :=
  with_sys (emit (EvPrintln m) (sys s)) s.

Definition set_worker (i : nat) (wk : worker) (s : state) : state :=
  with_pool (<[i := wk]> (pool s)) s.

Definition done_marker : message := MsgText "Done".

(** One step of [main]; [None] when it has to wait. *)
Definition main_step (w : world) (s : state) : option state :=
  match pc s with
  | MStart =>
      match args w with
      | [arg0; arg1] =>
          match readFile (read_error w) arg1 (sys s) with
          | (_, Some e) => Some (exit ExitReadFile (println (MsgError e) s))
          | (lines, None) =>
              match Atoi arg0 with
              | None =>
                  Some (exit ExitAtoi (println (MsgError (ErrAtoi arg0)) s))
              | Some n =>
                  Some {| pc := MSpawn 0; assets := lines; workers := n;
                          source := arg1;
                          work := make (length lines);
                          results := make (length lines);
                          wg := wg s; pool := pool s; closer := closer s;
                          sys := sys s; exited := exited s |}
              end
          end
      | _ =>
          Some (exit ExitUsage
                  (println (MsgText "Example ./binaryname 12 ./sourcefile.txt")
                     (println (MsgText "Provide arguments.") s)))
      end
  | MSpawn i =>
      if decide (i < workers s)%Z
      then Some (with_pc (MSpawn (i + 1))
                   (with_pool (pool s ++ [{| wpc := WRange; consumed := 0; emitted := 0 |}])
                      (with_wg (wg s + 1) s)))
      else Some (with_pc MSecrets s)
  | MSecrets =>
      match secrets w with
      | None => Some (exit ExitFatal (with_sys (emit EvFatal (sys s)) s))
      | Some (subscribePayload, tokenPayload) =>
          Some (with_pc (MToken subscribePayload tokenPayload) s)
      end
  | MToken subscribePayload tokenPayload =>
      match getToken (token_service w) tokenPayload (sys s) with
      | (o, inl e) => Some (exit ExitToken (println (MsgError e) (with_sys o s)))
      | (o, inr token) => Some (with_pc (MGo subscribePayload token) (with_sys o s))
      end
  | MGo subscribePayload token =>
      Some (with_pc (MEnqueue subscribePayload token (assets s))
              (with_closer (Some CWait) s))
  | MEnqueue subscribePayload token [] => Some (with_pc MCloseWork s)
  | MEnqueue subscribePayload token (imei :: rest) =>
      let params :=
        {| Url := BaseURL subscribePayload +:+ "/services/obdstack/v1/assets/"
                  +:+ imei +:+ "/subscribe";
           Method := "POST";
           Imei := imei;
           WorkPayload := Payload subscribePayload;
           Token := token;
           Path := source s |} in
      match send params (work s) with
      | Ready c => Some (with_pc (MEnqueue subscribePayload token rest) (with_work c s))
      | Blocked => None
      | Panic => Some (exit ExitPanic s)
      end
  | MCloseWork =>
      match close (work s) with
      | Ready c => Some (with_pc MDrain (with_work c s))
      | Blocked => None
      | Panic => Some (exit ExitPanic s)
      end
  | MDrain =>
      match recv (results s) with
      | Ready (Some result, c) =>
          let s := with_results c s in
          let s :=
            match err result with
            | Some e => with_sys (emit (EvLog e) (sys s)) s
            | None => s
            end in
          Some (println (MsgValue (value result)) s)
      | Ready (None, _) => Some (with_pc MDone s)
      | Blocked => None
      | Panic => Some (exit ExitPanic s)
      end
  | MDone => Some (exit ExitDone (println done_marker s))
  end.

(** The result [doWork] builds from what [doRequest] returns. *)
Definition toResult (r : error + IResult) : IJsonResult :=
  match r with
  | inl e => {| err := Some e; value := None |}
  | inr v => {| err := None; value := Some v |}
  end.

(** One step of the [i]-th [doWork]; [env] is what the surroundings
    answer if the step is the call of [doRequest]. The call is one
    step. Two workers inside [removeLine] at once race on the queue file
    and on the temporary file they share; that can change what the
    files hold afterwards and whether a call fails, and every failure a
    call can return is among the [io_faults] of [env]. *)
Definition doWork_step (i : nat) (env : req_env) (s : state) : option state :=
  match pool s !! i with
  | None => None
  | Some wk =>
      match wpc wk with
      | WRange =>
          match recv (work s) with
          | Ready (Some params, c) =>
              Some (set_worker i {| wpc := WRequest params;
                                    consumed := S (consumed wk);
                                    emitted := emitted wk |}
                      (with_work c s))
          | Ready (None, _) =>
              if decide (wg s - 1 < 0)%Z then Some (exit ExitPanic s)
              else Some (set_worker i {| wpc := WReturned;
                                         consumed := consumed wk;
                                         emitted := emitted wk |}
                           (with_wg (wg s - 1) s))
          | Blocked => None
          | Panic => Some (exit ExitPanic s)
          end
      | WRequest params =>
          let '(o, r) := doRequest env params (sys s) in
          Some (set_worker i {| wpc := WSend (toResult r);
                                consumed := consumed wk;
                                emitted := emitted wk |}
                  (with_sys o s))
      | WSend result =>
          match send result (results s) with
          | Ready c =>
              Some (set_worker i {| wpc := WRange;
                                    consumed := consumed wk;
                                    emitted := S (emitted wk) |}
                      (with_results c s))
          | Blocked => None
          | Panic => Some (exit ExitPanic s)
          end
      | WReturned => None
      end
  end.

(** One step of the goroutine that closes [results]. *)
Definition closer_step (s : state) : option state :=
  match closer s with
  | Some CWait =>
      if decide (wg s = 0%Z) then Some (with_closer (Some CClose) s) else None
  | Some CClose =>
      match close (results s) with
      | Ready c => Some (with_closer (Some CReturned) (with_results c s))
      | Blocked => None
      | Panic => Some (exit ExitPanic s)
      end
  | Some CReturned | None => None
  end.

(** Which goroutine moves next, and for a worker what the surroundings
    answer it. *)
Inductive label :=
| LMain
| LCloser
| LWorker (i : nat) (env : req_env).

(** A step of the process; nothing moves once it has exited. [None]: the
    chosen goroutine cannot move. *)
Definition step (w : world) (l : label) (s : state) : option state :=
  match exited s with
  | Some _ => None
  | None =>
      match l with
      | LMain => main_step w s
      | LCloser => closer_step s
      | LWorker i env => doWork_step i env s
      end
  end.

(** The run along a schedule. *)
Fixpoint exec (w : world) (sched : list label) (s : state) : option state :=
  match sched with
  | [] => Some s
  | l :: rest =>
      match step w l s with
      | Some s' => exec w rest s'
      | None => None
      end
  end.

(** ** Measures on states *)

Definition total (f : worker → nat) (p : list worker) : nat :=
  sum_list_with f p.

Definition pending (wk : worker) : nat :=
  match wpc wk with
  | WRequest _ | WSend _ => 1
  | _ => 0
  end.

Definition running (wk : worker) : nat :=
  match wpc wk with
  | WReturned => 0
  | _ => 1
  end.

Arguments pending !_ /.
Arguments running !_ /.

(** Work items [main] has sent to [work]. *)
Definition enqueued (s : state) : nat :=
  match pc s with
  | MStart | MSpawn _ | MSecrets | MToken _ _ | MGo _ _ => 0
  | MEnqueue _ _ rest => length (assets s) - length rest
  | MCloseWork | MDrain | MDone => length (assets s)
  end.

(** Results [main] has received and printed. *)
Fixpoint delivered_in (evs : list event) : nat :=
  match evs with
  | [] => 0
  | EvPrintln (MsgValue _) :: rest => S (delivered_in rest)
  | _ :: rest => delivered_in rest
  end.

Definition delivered (s : state) : nat := delivered_in (events (sys s)).

(** Events of [main] before any work item is served: no request to the
    subscribe endpoint, no write to a file, no result printed. *)
Definition startup_event (e : event) : Prop :=
  match e with
  | EvSubscribe _ _ | EvAppend _ _ | EvReplace _ | EvDecodeBody
  | EvPrintln (MsgValue _) => False
  | _ => True
  end.

(** [main] has started the closing goroutine. *)
Definition dispatching (p : main_pc) : Prop :=
  match p with
  | MEnqueue _ _ _ | MCloseWork | MDrain | MDone => True
  | _ => False
  end.

Definition token_fails (svc : token_outcome) : Prop :=
  match svc with
  | TokenOk _ => False
  | _ => True
  end.

(** An upper bound on the steps left. *)
Definition worker_weight (wk : worker) : nat :=
  match wpc wk with
  | WRange => 1
  | WRequest _ => 4
  | WSend _ => 3
  | WReturned => 0
  end.

Arguments worker_weight !_ /.

Definition closer_weight (c : option closer_pc) : nat :=
  match c with
  | Some CWait => 2
  | Some CClose => 1
  | _ => 0
  end.

Definition main_weight (s : state) : nat :=
  match pc s with
  | MStart => 0
  | MSpawn i => 2 * Z.to_nat (workers s - i) + 5 * length (assets s) + 9
  | MSecrets => 5 * length (assets s) + 8
  | MToken _ _ => 5 * length (assets s) + 7
  | MGo _ _ => 5 * length (assets s) + 6
  | MEnqueue _ _ rest => 5 * length rest + 3
  | MCloseWork => 2
  | MDrain => 1
  | MDone => 0
  end.

Definition measure (s : state) : nat :=
  match exited s with
  | Some _ => 0
  | None =>
      1 + main_weight s + total worker_weight (pool s)
      + 4 * length (buf (work s)) + length (buf (results s))
      + closer_weight (closer s)
  end.

Definition bound (w : world) : nat :=
  match main_step w (init w) with
  | Some s => S (measure s)
  | None => 0
  end.

(** The command line, the queue file, the secrets and the token are all
    in order, so that [main] reaches the dispatch: there are two
    arguments, [readFile] returns the lines of the queue file without an
    error, the count is a number, the secrets are loaded and the token
    call does not fail. *)
Definition starts (w : world) : Prop :=
  ∃ arg0 arg1 lines n sp,
    args w = [arg0; arg1] ∧
    readFile (read_error w) arg1 (sys (init w)) = (lines, None) ∧
    Atoi arg0 = Some n ∧ secrets w = Some sp ∧
    ¬ token_fails (token_service w).

(** The command line, the queue file and the secrets are in order, so
    that [main] reaches the token call. *)
Definition reaches_token (w : world) : Prop :=
  ∃ arg0 arg1 lines n sp,
    args w = [arg0; arg1] ∧
    readFile (read_error w) arg1 (sys (init w)) = (lines, None) ∧
    Atoi arg0 = Some n ∧ secrets w = Some sp.

(** ** The invariant of a run *)

Record invariant (w : world) (s : state) : Prop := {
  inv_start :
    pc s = MStart ∨
    ∃ arg0 arg1 data,
      args w = [arg0; arg1] ∧ disk w !! arg1 = Some data ∧
      read_error w = None ∧ Atoi arg0 = Some (workers s) ∧
      assets s = scanLines data ∧ source s = arg1 ∧
      cap (work s) = length (assets s) ∧ cap (results s) = length (assets s);
  inv_pool :
    match pc s with
    | MStart => pool s = []
    | MSpawn i =>
        (0 ≤ i ≤ Z.max 0 (workers s))%Z ∧ Z.of_nat (length (pool s)) = i
    | _ => Z.of_nat (length (pool s)) = Z.max 0 (workers s)
    end;
  inv_wg : wg s = Z.of_nat (total running (pool s));
  inv_worker :
    Forall (λ wk, consumed wk = emitted wk + pending wk) (pool s);
  inv_work :
    enqueued s = length (buf (work s)) + total consumed (pool s);
  inv_results :
    total emitted (pool s) = length (buf (results s)) + delivered s;
  inv_rest :
    ∀ sp tk rest, pc s = MEnqueue sp tk rest → length rest ≤ length (assets s);
  inv_work_closed :
    closed (work s) = match pc s with MDrain | MDone => true | _ => false end;
  inv_returned :
    Forall (λ wk, running wk = 1) (pool s) ∨
    (closed (work s) = true ∧ buf (work s) = []);
  inv_closer :
    match closer s with
    | None => closed (results s) = false ∧ ¬ dispatching (pc s)
    | Some CWait => closed (results s) = false ∧ dispatching (pc s)
    | Some CClose =>
        closed (results s) = false ∧ dispatching (pc s) ∧ wg s = 0%Z
    | Some CReturned =>
        closed (results s) = true ∧ dispatching (pc s) ∧ wg s = 0%Z
    end;
  inv_done :
    pc s = MDone → closed (results s) = true ∧ buf (results s) = [];
  inv_quiet :
    total consumed (pool s) = 0 →
    files (sys s) = disk w ∧ Forall startup_event (events (sys s));
  inv_token :
    match pc s with
    | MStart | MSpawn _ | MSecrets | MToken _ _ => True
    | _ => ¬ token_fails (token_service w) ∧ EvTokenRequest ∈ events (sys s)
    end;
  inv_exit :
    match exited s with
    | None => True
    | Some ExitUsage => pc s = MStart ∧ ∀ arg0 arg1, args w ≠ [arg0; arg1]
    | Some ExitReadFile =>
        pc s = MStart ∧
        ∃ arg0 arg1, args w = [arg0; arg1] ∧
          is_Some (readFile (read_error w) arg1 (sys (init w))).2
    | Some ExitAtoi =>
        pc s = MStart ∧ ∃ arg0 arg1, args w = [arg0; arg1] ∧ Atoi arg0 = None
    | Some ExitFatal => pc s = MSecrets ∧ secrets w = None
    | Some ExitToken =>
        (∃ sp cred, pc s = MToken sp cred) ∧ token_fails (token_service w)
    | Some ExitDone =>
        pc s = MDone ∧ head (events (sys s)) = Some (EvPrintln done_marker)
    | Some ExitPanic => False
    end
}.

(** ** Concrete inputs *)

Definition queue_unterminated : os :=
  {| files := {[ "q.txt" := "A" ]}; events := [] |}.
Definition queue_two_CR : os :=
  {| files := {[ "q.txt" := "A" +:+ String CR (String CR newline) ]};
     events := [] |}.
Definition queue_ABA : os :=
  {| files := {[ "q.txt" := "A" +:+ newline +:+ "B" +:+ newline +:+ "A" +:+ newline ]};
     events := [] |}.

Definition queue_CR : os :=
  {| files := {[ "q.txt" := "A" +:+ String CR newline +:+ "B" +:+ newline ]};
     events := [] |}.
(** The failure log used as the queue file. *)
Definition queue_is_log : os :=
  {| files := {[ failedLog := "A" +:+ newline ]}; events := [] |}.

Definition params_A : IWorkerParams :=
  {| Url := "http://h/services/obdstack/v1/assets/A/subscribe";
     Method := "POST"; Imei := "A";
     WorkPayload := {| Offer := "o"; Account := "a"; RebootAfterNextTrip := false |};
     Token := "t"; Path := "q.txt" |}.

Definition answer (o : do_outcome) : req_env :=
  {| marshal_fails := false; newrequest_fails := false;
     client_do := o; append := AppendOk; io := no_faults |}.

(** Status 200 with a body that is not JSON. *)
Definition ok_garbled : req_env :=
  answer (DoResponse {| StatusCode := 200; Status := "200 OK"; BodyJSON := None |}).
Definition ok_json : req_env :=
  answer (DoResponse {| StatusCode := 200; Status := "200 OK"; BodyJSON := Some [] |}).
Definition server_error : req_env :=
  answer (DoResponse {| StatusCode := 500; Status := "500 Internal Server Error";
                        BodyJSON := None |}).
Definition timed_out : req_env := answer (DoError true).
(** Status 500 while the failure log cannot be opened. *)
Definition server_error_unlogged : req_env :=
  {| marshal_fails := false; newrequest_fails := false;
     client_do := DoResponse {| StatusCode := 500;
                                Status := "500 Internal Server Error";
                                BodyJSON := None |};
     append := AppendOpenFails; io := no_faults |}.
Definition params_log : IWorkerParams :=
  {| Url := "http://h/services/obdstack/v1/assets/A/subscribe";
     Method := "POST"; Imei := "A";
     WorkPayload := {| Offer := "o"; Account := "a"; RebootAfterNextTrip := false |};
     Token := "t"; Path := failedLog |}.

Definition world_of (count : string) (svc : token_outcome) : world :=
  {| args := [count; "q.txt"];
     disk := {[ "q.txt" := "A" +:+ newline +:+ "B" +:+ newline ]};
     read_error := None;
     secrets := Some ({| BaseURL := "http://h";
                         Payload := {| Offer := "o"; Account := "a";
                                       RebootAfterNextTrip := false |} |},
                      {| AuthBaseURL := "http://auth"; GrantType := "password";
                         Username := "u"; Password := "p" |});
     token_service := svc |}.

(** [main] alone up to the dispatch, then the closer, then [main] to its
    end: a whole run when no worker was started. *)
Definition sched_no_worker : list label :=
  replicate 9 LMain ++ [LCloser; LCloser] ++ replicate 2 LMain.

(** [main] alone until the token call has failed, with two workers. *)
Definition sched_token_failure : list label := replicate 6 LMain.

(** One worker serving both work items, the first answered 200 and the
    second 500. *)
Definition sched_one_worker : list label :=
  replicate 10 LMain
  ++ [LWorker 0 ok_json; LWorker 0 ok_json; LWorker 0 ok_json;
      LWorker 0 server_error; LWorker 0 server_error; LWorker 0 server_error;
      LWorker 0 server_error; LCloser; LCloser]
  ++ replicate 4 LMain.

(** The runs used as examples, by their last state. *)
Definition run_of (w : world) (sched : list label) : state :=
  default (init w) (exec w sched (init w)).

Definition world_nobody : world := world_of "-3" (TokenOk "t").
Definition world_no_token : world := world_of "2" TokenDecodeError.
Definition world_one : world := world_of "1" (TokenOk "t").

(** ** Further vocabulary *)

(** How often an event of one kind occurs. *)
Fixpoint occurrences (kind : event → bool) (evs : list event) : nat :=
  match evs with
  | [] => 0
  | e :: rest => (if kind e then 1 else 0) + occurrences kind rest
  end.

Definition is_subscribe (e : event) : bool :=
  match e with
  | EvSubscribe _ _ => true
  | _ => false
  end.

Definition is_token_request (e : event) : bool :=
  match e with
  | EvTokenRequest => true
  | _ => false
  end.

(** The work item [main] builds for [imei] in its loop over [assets]. *)
Definition workItem (subscribePayload : ISubscribeRequest) (token path imei : string)
  : IWorkerParams :=
  {| Url := BaseURL subscribePayload +:+ "/services/obdstack/v1/assets/"
            +:+ imei +:+ "/subscribe";
     Method := "POST";
     Imei := imei;
     WorkPayload := Payload subscribePayload;
     Token := token;
     Path := path |}.

(** The identifiers [main] has still to send to [work]. *)
Definition remaining (s : state) : list string :=
  match pc s with
  | MEnqueue _ _ rest => rest
  | MCloseWork | MDrain | MDone => []
  | _ => assets s
  end.

(** The worker holds a work item whose request it has not made yet. *)
Definition requesting (wk : worker) : nat :=
  match wpc wk with
  | WRequest _ => 1
  | _ => 0
  end.
Arguments requesting !_ /.

Definition queue_ABC_open : os :=
  {| files := {[ "q.txt" := "A" +:+ newline +:+ "B" +:+ String CR newline +:+ "C" ]};
     events := [] |}.
Definition open_fault : io_faults :=
  {| open_fails := true; create_fails := false;
     scan_fails := None; rename_fails := false |}.
Definition rename_fault : io_faults :=
  {| open_fails := false; create_fails := false;
     scan_fails := None; rename_fails := true |}.
Definition subscribe_h : ISubscribeRequest :=
  {| BaseURL := "http://h";
     Payload := {| Offer := "o"; Account := "a"; RebootAfterNextTrip := false |} |}.
Definition world_bad_count : world := world_of "eight" (TokenOk "t").
Definition world_no_secrets : world :=
  {| args := ["2"; "q.txt"];
     disk := {[ "q.txt" := "A" +:+ newline +:+ "B" +:+ newline ]};
     read_error := None; secrets := None; token_service := TokenOk "t" |}.

(** [p] is a work item [main] builds for this run: for an identifier of
    the queue file, with the subscribe settings of the secrets, the
    token the endpoint gave and the queue file's path. *)
Definition issued (w : world) (queue : string) (ids : list string)
    (p : IWorkerParams) : Prop :=
  ∃ sp cred tk,
    secrets w = Some (sp, cred) ∧ token_service w = TokenOk tk ∧
    Imei p ∈ ids ∧ p = workItem sp tk queue (Imei p).

(** An event that serves a work item of this run: a request for one of
    them, an append of one of the identifiers to the failure log, or a
    replacement of the queue file. The other events are not restricted. *)
Definition sanctioned (w : world) (queue : string) (ids : list string)
    (e : event) : Prop :=
  match e with
  | EvSubscribe url token =>
      ∃ p, issued w queue ids p ∧ url = Url p ∧ token = Token p
  | EvAppend path content => path = failedLog ∧ content ∈ ids
  | EvReplace path => path = queue
  | _ => True
  end.

(** Where the work items and the events of a run come from. *)
Record provenance (w : world) (s : state) : Prop := {
  prov_secrets :
    match pc s with
    | MStart | MSpawn _ | MSecrets => True
    | MToken sp cred => secrets w = Some (sp, cred)
    | MGo sp tk | MEnqueue sp tk _ =>
        (∃ cred, secrets w = Some (sp, cred)) ∧ token_service w = TokenOk tk
    | MCloseWork | MDrain | MDone => is_Some (secrets w)
    end;
  prov_order :
    drop (total consumed (pool s)) (assets s)
    = (Imei <$> buf (work s)) ++ remaining s;
  prov_queued :
    Forall (issued w (source s) (assets s)) (buf (work s));
  prov_held :
    Forall (λ wk, match wpc wk with
                  | WRequest p => issued w (source s) (assets s) p
                  | _ => True
                  end) (pool s);
  prov_events :
    Forall (sanctioned w (source s) (assets s)) (events (sys s));
  prov_files :
    ∀ q, q ≠ failedLog → q ≠ source s → q ≠ source s +:+ "~tmp" →
         files (sys s) !! q = disk w !! q;
  prov_attempts :
    occurrences is_subscribe (events (sys s)) + total requesting (pool s)
    ≤ total consumed (pool s);
  prov_token :
    occurrences is_token_request (events (sys s)) ≤ 1 ∧
    match pc s with
    | MStart | MSpawn _ | MSecrets =>
        occurrences is_token_request (events (sys s)) = 0
    | MToken _ _ =>
        exited s = None → occurrences is_token_request (events (sys s)) = 0
    | _ => True
    end
}.
(** ** Strings *)

Lemma append_cons (c : ascii) (s t : string) :
  String c s +:+ t = String c (s +:+ t).
Proof. reflexivity. Qed.

Lemma append_nil_l (s : string) : "" +:+ s = s.
Proof. reflexivity. Qed.

Lemma append_nil_r (s : string) : s +:+ "" = s.
Proof. induction s as [|c s IH]; [done | by rewrite append_cons, IH]. Qed.

Lemma append_assoc (s t u : string) : (s +:+ t) +:+ u = s +:+ t +:+ u.
Proof. induction s as [|c s IH]; [done | by rewrite !append_cons, IH]. Qed.

Lemma length_append (s t : string) :
  String.length (s +:+ t) = String.length s + String.length t.
Proof. induction s as [|c s IH]; [done | rewrite append_cons; simpl; by rewrite IH]. Qed.

Lemma append_ne_self (s t : string) : t ≠ "" → s +:+ t ≠ s.
Proof.
  intros Ht Heq. apply (f_equal String.length) in Heq.
  rewrite length_append in Heq. destruct t; simpl in *; [done | lia].
Qed.

Lemma tmpName_ne (path : string) : path +:+ "~tmp" ≠ path.
Proof. by apply append_ne_self. Qed.


(** ** The scanner reads back what [render] wrote *)

Lemma noLF_snoc (s : string) (c : ascii) :
  noLF (s +:+ String c "") = noLF s && negb (bool_decide (c = LF)).
Proof.
  induction s as [|a s IH].
  - rewrite append_nil_l. simpl. by rewrite andb_true_r.
  - rewrite append_cons. simpl. rewrite IH. by rewrite andb_assoc.
Qed.

Lemma noLF_dropCR (s : string) : noLF s = true → noLF (dropCR s) = true.
Proof.
  induction s as [|a s IH]; [done|]. simpl. intros [Ha Hs]%andb_true_iff.
  destruct s as [|b s].
  - destruct (decide (a = CR)); simpl; [done | by rewrite Ha].
  - change (noLF (String a (dropCR (String b s))) = true). simpl noLF at 1.
    rewrite Ha. simpl. by apply IH.
Qed.

Lemma scanTokens_noLF (data line : string) :
  noLF line = true → Forall (λ l, noLF l = true) (scanTokens line data).
Proof.
  revert line. induction data as [|c data IH]; intros line Hline; simpl.
  - destruct (decide (line = "")); [constructor|].
    constructor; [by apply noLF_dropCR | constructor].
  - destruct (decide (c = LF)) as [Hc|Hc].
    + constructor; [by apply noLF_dropCR | by apply IH].
    + apply IH. rewrite noLF_snoc, Hline. simpl.
      by rewrite bool_decide_eq_false_2.
Qed.

Lemma scanLines_noLF (data : string) : Forall (λ l, noLF l = true) (scanLines data).
Proof. by apply scanTokens_noLF. Qed.

Lemma scanTokens_line (line acc rest : string) :
  noLF line = true →
  scanTokens acc (line +:+ newline +:+ rest)
  = dropCR (acc +:+ line) :: scanTokens "" rest.
Proof.
  revert acc. induction line as [|c line IH]; intros acc Hline.
  - rewrite append_nil_l, append_nil_r. unfold newline. rewrite append_cons.
    simpl. by rewrite append_nil_l.
  - simpl in Hline. apply andb_true_iff in Hline as [Hc Hline].
    apply negb_true_iff, bool_decide_eq_false in Hc.
    rewrite append_cons. simpl. rewrite decide_False by done.
    rewrite IH by done. by rewrite append_assoc.
Qed.

Lemma scanLines_render (lines : list string) :
  Forall cleanLine lines → scanLines (render lines) = lines.
Proof.
  unfold scanLines. induction 1 as [|line lines [Hlf Hcr] _ IH]; [done|].
  simpl. rewrite scanTokens_line by done. rewrite append_nil_l. by rewrite Hcr, IH.
Qed.

(** ** Lists of lines *)

Lemma filter_absent (content : string) (lines : list string) :
  content ∉ lines → filter (λ line, line ≠ content) lines = lines.
Proof.
  induction lines as [|line lines IH]; [done|].
  intros [Hne Hrest]%not_elem_of_cons. rewrite filter_cons.
  rewrite decide_True by done. by rewrite IH.
Qed.

Lemma filter_partition_length (content : string) (lines : list string) :
  length (filter (λ line, line ≠ content) lines)
  + length (filter (λ line, line = content) lines) = length lines.
Proof.
  induction lines as [|line lines IH]; [done|]. rewrite !filter_cons.
  destruct (decide (line = content)) as [->|Hne].
  - rewrite decide_False by naive_solver. simpl. lia.
  - rewrite decide_True by done. simpl. lia.
Qed.


(** ** Files read back *)


Lemma scanLines_render_CR (lines : list string) :
  Forall (λ l, noLF l = true) lines →
  scanLines (render lines) = dropCR <$> lines.
Proof.
  unfold scanLines. induction 1 as [|line lines Hlf _ IH]; [done|].
  simpl. rewrite scanTokens_line by done. rewrite append_nil_l. by rewrite IH.
Qed.

Lemma scanTokens_last (last acc : string) :
  noLF last = true → acc +:+ last ≠ "" →
  scanTokens acc last = [dropCR (acc +:+ last)].
Proof.
  revert acc. induction last as [|c last IH]; intros acc Hlf Hne.
  - rewrite append_nil_r in *. simpl. by rewrite decide_False.
  - simpl in Hlf. apply andb_true_iff in Hlf as [Hc Hlf].
    apply negb_true_iff, bool_decide_eq_false in Hc.
    simpl. rewrite decide_False by done.
    rewrite IH; rewrite ?append_assoc; done.
Qed.

Lemma scanTokens_render_last (lines : list string) (last : string) :
  Forall (λ l, noLF l = true) lines → noLF last = true → last ≠ "" →
  scanLines (render lines +:+ last) = dropCR <$> (lines ++ [last]).
Proof.
  unfold scanLines. intros Hlines Hlast Hne.
  induction Hlines as [|line lines Hlf _ IH].
  - rewrite append_nil_l. by rewrite scanTokens_last.
  - simpl. rewrite !append_assoc, scanTokens_line by done.
    rewrite append_nil_l. by rewrite IH.
Qed.

Lemma filter_idem (content : string) (lines : list string) :
  filter (λ line, line ≠ content) (filter (λ line, line ≠ content) lines)
  = filter (λ line, line ≠ content) lines.
Proof.
  apply filter_absent. rewrite list_elem_of_filter. by intros [? _].
Qed.

Lemma filter_comm (a b : string) (lines : list string) :
  filter (λ line, line ≠ b) (filter (λ line, line ≠ a) lines)
  = filter (λ line, line ≠ a) (filter (λ line, line ≠ b) lines).
Proof.
  induction lines as [|l lines IH]; [done|]. rewrite !filter_cons.
  destruct (decide (l ≠ a)), (decide (l ≠ b));
    rewrite ?filter_cons, ?decide_True, ?decide_False by done; by rewrite IH.
Qed.

Lemma Forall_filter_keep {A} (P Q : A → Prop) `{∀ x, Decision (Q x)} (l : list A) :
  Forall P l → Forall P (filter Q l).
Proof.
  rewrite !Forall_forall. intros Hl x [_ Hx]%list_elem_of_filter. by apply Hl.
Qed.

Lemma fmap_dropCR_id (lines : list string) :
  Forall (λ l, dropCR l = l) lines → dropCR <$> lines = lines.
Proof. induction 1 as [|l lines Hl _ IH]; [done|]. csimpl. by rewrite Hl, IH. Qed.

(** ** The scanner and its buffer *)

Lemma length_dropCR (s : string) : String.length (dropCR s) ≤ String.length s.
Proof.
  induction s as [|a s IH]; [done|]. destruct s as [|b s].
  - simpl. destruct (decide (a = CR)); simpl; lia.
  - change (dropCR (String a (String b s))) with (String a (dropCR (String b s))).
    simpl in *. lia.
Qed.

Lemma fits_dropCR (s : string) : fits s → fits (dropCR s).
Proof. unfold fits. pose proof (length_dropCR s). lia. Qed.

(** The scanner delivers the lines of its input from the first on, and
    all of them when it does not stop on a long line. *)
Lemma scan_tokens (data line : string) :
  ∃ k, (scan line data).1 = take k (scanTokens line data) ∧
       ((scan line data).2 = false → (scan line data).1 = scanTokens line data).
Proof.
  revert line. induction data as [|c data IH]; intros line; simpl.
  - destruct (decide (line = "")); [by exists 0|].
    destruct (decide (fits line)); [by exists 1 | by exists 0].
  - destruct (decide (c = LF)); [|apply IH].
    destruct (decide (fits line)); [|by exists 0].
    destruct (IH "") as (k & Hk & Hall).
    destruct (scan "" data) as [tokens long]. simpl in *.
    exists (S k). split; [by rewrite Hk|]. intros Hl. by rewrite Hall.
Qed.

Lemma scan_all (data line : string) (tokens : list string) :
  scan line data = (tokens, false) → tokens = scanTokens line data.
Proof.
  intros H. destruct (scan_tokens data line) as (_ & _ & Hall).
  rewrite H in Hall. simpl in Hall. by apply Hall.
Qed.

Lemma scan_fits (data line : string) (tokens : list string) (long : bool) :
  scan line data = (tokens, long) → Forall fits tokens.
Proof.
  revert line tokens long.
  induction data as [|c data IH]; intros line tokens long; simpl.
  - destruct (decide (line = "")); [intros [= <- _]; constructor|].
    destruct (decide (fits line)); intros [= <- _]; [|constructor].
    constructor; [by apply fits_dropCR | constructor].
  - destruct (decide (c = LF)); [|apply IH].
    destruct (decide (fits line)); [|intros [= <- _]; constructor].
    destruct (scan "" data) as [ts l] eqn:Hscan. intros [= <- _].
    constructor; [by apply fits_dropCR | by eapply IH].
Qed.

Lemma scan_noLF (data line : string) :
  noLF line = true → Forall (λ l, noLF l = true) (scan line data).1.
Proof.
  intros Hline. destruct (scan_tokens data line) as (k & -> & _).
  by apply Forall_take, scanTokens_noLF.
Qed.

Lemma scan_line (line acc rest : string) :
  noLF line = true →
  scan acc (line +:+ newline +:+ rest)
  = if decide (fits (acc +:+ line))
    then (dropCR (acc +:+ line) :: (scan "" rest).1, (scan "" rest).2)
    else ([], true).
Proof.
  revert acc. induction line as [|c line IH]; intros acc Hline.
  - rewrite append_nil_l, append_nil_r. unfold newline. rewrite append_cons.
    simpl. rewrite append_nil_l. destruct (decide (fits acc)); [|done].
    by destruct (scan "" rest).
  - simpl in Hline. apply andb_true_iff in Hline as [Hc Hline].
    apply negb_true_iff, bool_decide_eq_false in Hc.
    rewrite append_cons. simpl. rewrite decide_False by done.
    rewrite IH by done. by rewrite append_assoc.
Qed.

(** Lines that fit, written one after the other, are scanned to the
    last; the first that does not fit stops the scanner. *)
Lemma scan_render (lines : list string) :
  Forall (λ l, noLF l = true ∧ fits l) lines →
  scan "" (render lines) = (dropCR <$> lines, false).
Proof.
  induction 1 as [|line lines [Hlf Hfit] _ IH]; [done|].
  simpl. rewrite scan_line by done. rewrite append_nil_l.
  rewrite decide_True by done. by rewrite IH.
Qed.


Lemma scan_last (last acc : string) :
  noLF last = true → acc +:+ last ≠ "" →
  scan acc last
  = if decide (fits (acc +:+ last)) then ([dropCR (acc +:+ last)], false)
    else ([], true).
Proof.
  revert acc. induction last as [|c last IH]; intros acc Hlf Hne.
  - rewrite append_nil_r in *. simpl. by rewrite decide_False.
  - simpl in Hlf. apply andb_true_iff in Hlf as [Hc Hlf].
    apply negb_true_iff, bool_decide_eq_false in Hc.
    simpl. rewrite decide_False by done.
    rewrite IH; rewrite ?append_assoc; done.
Qed.

(** The scanner makes nothing of the newline after the last line. *)
Lemma scan_render_last (lines : list string) (last : string) :
  Forall (λ l, noLF l = true) lines → noLF last = true → last ≠ "" →
  scan "" (render lines +:+ last) = scan "" (render (lines ++ [last])).
Proof.
  intros Hlines Hlast Hne. induction Hlines as [|line lines Hlf _ IH]; simpl.
  - rewrite !append_nil_l, append_nil_r. rewrite scan_last by done.
    rewrite <- (append_nil_r (last +:+ newline)), append_assoc.
    rewrite scan_line by done. rewrite append_nil_l.
    by destruct (decide (fits last)).
  - rewrite !append_assoc, !scan_line by done. by rewrite IH.
Qed.

Lemma scanFile_ok (read_fails : option nat) (data : string) (tokens : list string) :
  scanFile read_fails data = (tokens, None) →
  read_fails = None ∧ tokens = scanLines data ∧ Forall fits tokens.
Proof.
  unfold scanFile. destruct read_fails as [k|].
  - destruct (scan "" (firstBytes k data)) as [ts []]; by intros [= <-].
  - destruct (scan "" data) as [ts []] eqn:Hscan; [done|]. intros [= <-].
    split; [done|]. split; [by apply scan_all | by eapply scan_fits].
Qed.

Lemma scanFile_noLF (read_fails : option nat) (data : string) :
  Forall (λ l, noLF l = true) (scanFile read_fails data).1.
Proof.
  unfold scanFile.
  destruct read_fails as [k|];
    [pose proof (scan_noLF (firstBytes k data) "" eq_refl)
    |pose proof (scan_noLF data "" eq_refl)];
    by destruct (scan "" _).
Qed.

(** ** [removeLine] *)

Lemma scanLoop_spec (content : string) (lines : list string) (out : string) :
  scanLoop content lines out
  = out +:+ render (filter (λ line, line ≠ content) lines).
Proof.
  revert out. induction lines as [|line lines IH]; intros out; simpl.
  - by rewrite append_nil_r.
  - rewrite filter_cons. case_decide.
    + rewrite IH. simpl. by rewrite !append_assoc.
    + by rewrite IH.
Qed.

Lemma removeLine_success io path content o o' :
  removeLine io path content o = (o', None) →
  ∃ data, files o !! path = Some data ∧
    let written := render (filter (λ line, line ≠ content) (scanLines data)) in
    files o' = delete (path +:+ "~tmp")
                 (<[path := written]> (<[path +:+ "~tmp" := written]> (files o))) ∧
    events o' = EvReplace path :: events o.
Proof.
  unfold removeLine. intros H.
  destruct (files o !! path) as [data|] eqn:Hdata; [|done].
  destruct (open_fails io); [done|]. destruct (create_fails io); [done|].
  destruct (scanFile (scan_fails io) data) as [delivered [e|]] eqn:Hscan; [done|].
  apply scanFile_ok in Hscan as (_ & -> & _).
  destruct (rename_fails io); [done|]. injection H as <-.
  exists data. split; [done|]. simpl. by rewrite scanLoop_spec.
Qed.

Lemma removeLine_success_fits io path content o o' data :
  files o !! path = Some data →
  removeLine io path content o = (o', None) →
  scan_fails io = None ∧ Forall fits (scanLines data).
Proof.
  unfold removeLine. intros -> H.
  destruct (open_fails io); [done|]. destruct (create_fails io); [done|].
  destruct (scanFile (scan_fails io) data) as [delivered [e|]] eqn:Hscan; [done|].
  by apply scanFile_ok in Hscan as (? & -> & ?).
Qed.

Lemma removeLine_success_lookup io path content o o' data :
  files o !! path = Some data →
  removeLine io path content o = (o', None) →
  files o' !! path
  = Some (render (filter (λ line, line ≠ content) (scanLines data))).
Proof.
  intros Hdata (data' & Hdata' & Hfiles & _)%removeLine_success.
  simpl in Hfiles. rewrite Hfiles.
  rewrite lookup_delete_ne by apply tmpName_ne.
  rewrite lookup_insert_eq. congruence.
Qed.

Lemma removeLine_failure io path content o o' e :
  removeLine io path content o = (o', Some e) →
  events o' = events o ∧ files o' !! path = files o !! path ∧
  classify (ErrWrap "removing line from text file" e) = Some QueueMutationError.
Proof.
  unfold removeLine. intros H.
  destruct (files o !! path) as [data|] eqn:Hdata; [|by simplify_eq].
  destruct (open_fails io); [by simplify_eq|].
  destruct (create_fails io); [by simplify_eq|].
  destruct (scanFile (scan_fails io) data) as [delivered [e1|]] eqn:Hscan.
  - simplify_eq. simpl. rewrite lookup_insert_ne by apply tmpName_ne.
    split_and!; try done. revert Hscan. unfold scanFile.
    destruct (scan "" _) as [ts []]; destruct (scan_fails io);
      intros; by simplify_eq.
  - destruct (rename_fails io); simplify_eq. simpl.
    by rewrite lookup_insert_ne by apply tmpName_ne.
Qed.

Lemma tmpName_ne_failedLog (path : string) : path +:+ "~tmp" ≠ failedLog.
Proof.
  unfold failedLog. intros H.
  do 9 (destruct path as [|? path]; [by vm_compute in H|];
        rewrite append_cons in H; injection H as _ H).
  apply (f_equal String.length) in H. rewrite length_append in H.
  simpl in H. lia.
Qed.

Lemma removeLine_error_frame io path content o o' e q :
  removeLine io path content o = (o', Some e) →
  q ≠ path +:+ "~tmp" → files o' !! q = files o !! q.
Proof.
  unfold removeLine. intros H Hq.
  destruct (files o !! path) as [data|] eqn:Hdata; [|by simplify_eq].
  destruct (open_fails io); [by simplify_eq|].
  destruct (create_fails io); [by simplify_eq|].
  destruct (scanFile (scan_fails io) data) as [delivered [e1|]].
  - simplify_eq. simpl. by rewrite lookup_insert_ne.
  - destruct (rename_fails io); simplify_eq. simpl. by rewrite lookup_insert_ne.
Qed.

Lemma removeLine_open_error io path content o o' q :
  removeLine io path content o = (o', Some (ErrOpen q)) → o' = o.
Proof.
  unfold removeLine. intros H.
  destruct (files o !! path) as [data|] eqn:Hdata; [|by simplify_eq].
  destruct (open_fails io); [by simplify_eq|].
  destruct (create_fails io); [by simplify_eq|].
  destruct (scanFile (scan_fails io) data) as [delivered [e1|]] eqn:Hscan.
  - exfalso. injection H as _ ->. revert Hscan. unfold scanFile.
    destruct (scan "" _) as [ts []]; destruct (scan_fails io);
      intros; by simplify_eq.
  - destruct (rename_fails io); by simplify_eq.
Qed.

Lemma removeLine_success_frame io path content o o' q :
  removeLine io path content o = (o', None) →
  q ≠ path → q ≠ path +:+ "~tmp" → files o' !! q = files o !! q.
Proof.
  intros (data & Hdata & Hfiles & Hev)%removeLine_success Hq Hq'.
  simpl in Hfiles. rewrite Hfiles.
  by rewrite lookup_delete_ne, !lookup_insert_ne.
Qed.

(** ** [appendToFile] *)

Lemma appendToFile_frame fault path content o q :
  q ≠ path → files (appendToFile fault path content o) !! q = files o !! q.
Proof.
  intros Hq. unfold appendToFile.
  destruct fault; simpl; by rewrite ?lookup_insert_ne.
Qed.

Lemma appendToFile_events fault path content o :
  ∃ evs,
    events (appendToFile fault path content o) = (evs ++ events o)%list ∧
    Forall (λ e, e = EvAppend path content ∨ ∃ err, e = EvLog err) evs.
Proof.
  unfold appendToFile. destruct fault; simpl.
  - exists [EvAppend path content]. split; [done|].
    apply Forall_cons. split; [by left | by apply Forall_nil].
  - exists [EvLog ErrInvalid; EvLog (ErrOpen path)]. split; [done|].
    repeat (apply Forall_cons; split; [right; eauto|]). by apply Forall_nil.
  - exists [EvLog (ErrWrite path)]. split; [done|].
    apply Forall_cons. split; [right; eauto | by apply Forall_nil].
Qed.

(** ** [readFile] *)

Lemma readFile_ok read_error path o lines :
  readFile read_error path o = (lines, None) →
  ∃ data, files o !! path = Some data ∧ read_error = None ∧
          lines = scanLines data ∧ Forall fits lines.
Proof.
  unfold readFile. destruct (files o !! path) as [data|]; [|done].
  intros (-> & -> & ?)%scanFile_ok. by exists data.
Qed.

Lemma readFile_render path o lines :
  files o !! path = Some (render lines) →
  Forall (λ l, noLF l = true ∧ fits l) lines →
  readFile None path o = (dropCR <$> lines, None).
Proof.
  intros Hdata Hlines. unfold readFile, scanFile. rewrite Hdata.
  by rewrite scan_render.
Qed.

Lemma Forall_noLF_fits (lines : list string) :
  Forall (λ l, noLF l = true) lines → Forall fits lines →
  Forall (λ l, noLF l = true ∧ fits l) lines.
Proof.
  rewrite !Forall_forall. intros Hlf Hfit l Hl. split; [by apply Hlf | by apply Hfit].
Qed.

Lemma readFile_files read_error path o o' :
  files o = files o' → readFile read_error path o = readFile read_error path o'.
Proof. unfold readFile. by intros ->. Qed.

(** ** The queue file under [removeLine] *)

(** C6, as the spec states it, fails. On a queue file whose last line
    has no newline, [removeLine] for an identifier that is on no line
    gives that line a newline, so the file's bytes change. On a queue
    file with two carriage returns before a newline not even the lines
    stay: the line read is ["A" ++ CR], the line read back after the
    rewrite is ["A"]. *)
Lemma removeLine_absent_rewrites_bytes :
  ("B" ∉ scanLines "A") ∧
  files queue_unterminated !! "q.txt" = Some "A" ∧
  (removeLine no_faults "q.txt" "B" queue_unterminated).2 = None ∧
  files (removeLine no_faults "q.txt" "B" queue_unterminated).1 !! "q.txt"
  = Some ("A" +:+ newline) ∧
  ("B" ∉ scanLines ("A" +:+ String CR (String CR newline))) ∧
  files queue_two_CR !! "q.txt" = Some ("A" +:+ String CR (String CR newline)) ∧
  (removeLine no_faults "q.txt" "B" queue_two_CR).2 = None ∧
  files (removeLine no_faults "q.txt" "B" queue_two_CR).1 !! "q.txt"
  = Some ("A" +:+ String CR newline) ∧
  scanLines ("A" +:+ String CR (String CR newline)) = ["A" +:+ String CR ""] ∧
  scanLines ("A" +:+ String CR newline) = ["A"].
Proof.
  split; [apply (bool_decide_unpack _); by vm_compute|].
  do 3 (split; [by vm_compute|]).
  split; [apply (bool_decide_unpack _); by vm_compute|].
  by vm_compute.
Qed.

(** C6 (amended): for every queue file and every identifier that occurs
    on no line of it, a successful [removeLine] writes back every line it
    read, in order, each ended by one newline; a file whose lines are
    all written that way (newline-terminated, no carriage return before
    the newline) is left byte for byte as it was. *)
Theorem removeLine_absent_identifier io path content o o' data :
  files o !! path = Some data →
  content ∉ scanLines data →
  removeLine io path content o = (o', None) →
  files o' !! path = Some (render (scanLines data)) ∧
  (∀ lines, Forall cleanLine lines → data = render lines →
     files o' !! path = Some data).
Proof.
  intros Hdata Habsent Hrun.
  pose proof (removeLine_success_lookup _ _ _ _ _ _ Hdata Hrun) as Hnew.
  rewrite filter_absent in Hnew by done. split; [done|].
  intros lines Hclean ->. rewrite Hnew. by rewrite scanLines_render.
Qed.

Lemma removeLine_absent_identifier_witness :
  ("Z" ∉ scanLines ("A" +:+ newline +:+ "B" +:+ newline +:+ "A" +:+ newline)) ∧
  (removeLine no_faults "q.txt" "Z" queue_ABA).2 = None ∧
  files (removeLine no_faults "q.txt" "Z" queue_ABA).1 !! "q.txt"
  = Some (render ["A"; "B"; "A"]) ∧
  files (removeLine no_faults "q.txt" "Z" queue_ABA).1 !! "q.txt"
  = files queue_ABA !! "q.txt".
Proof.
  assert ("Z" ∉ scanLines ("A" +:+ newline +:+ "B" +:+ newline +:+ "A" +:+ newline))
    as Habsent by (apply (bool_decide_unpack _); vm_compute; exact I).
  split; [exact Habsent|]. split; [reflexivity|].
  destruct (removeLine_absent_identifier no_faults "q.txt" "Z" queue_ABA
              (removeLine no_faults "q.txt" "Z" queue_ABA).1
              ("A" +:+ newline +:+ "B" +:+ newline +:+ "A" +:+ newline))
    as [Hlines Hbytes].
  - reflexivity.
  - exact Habsent.
  - vm_compute. reflexivity.
  - split; [exact Hlines|].
    apply (Hbytes ["A"; "B"; "A"]); [|reflexivity].
    repeat constructor.
Defined.

(** C7: a successful [removeLine] drops only the lines equal to the
    target identifier: the replacement file holds exactly the lines of
    the queue file that differ from it, every one of them, in their
    original order. *)
Theorem removeLine_writes_other_lines io path content o o' data :
  files o !! path = Some data →
  removeLine io path content o = (o', None) →
  ∃ kept,
    files o' !! path = Some (render kept) ∧
    kept = filter (λ line, line ≠ content) (scanLines data) ∧
    kept `sublist_of` scanLines data ∧
    (∀ line, line ∈ scanLines data → line ≠ content → line ∈ kept).
Proof.
  intros Hdata Hrun. eexists. split; [by eapply removeLine_success_lookup|].
  split; [done|]. split; [apply sublist_filter|].
  intros line Hin Hne. by apply list_elem_of_filter.
Qed.

Lemma removeLine_writes_other_lines_witness :
  ∃ kept,
    files (removeLine no_faults "q.txt" "A" queue_ABA).1 !! "q.txt"
    = Some (render kept) ∧
    kept = filter (λ line, line ≠ "A")
             (scanLines ("A" +:+ newline +:+ "B" +:+ newline +:+ "A" +:+ newline)) ∧
    kept `sublist_of`
      scanLines ("A" +:+ newline +:+ "B" +:+ newline +:+ "A" +:+ newline) ∧
    (∀ line,
       line ∈ scanLines ("A" +:+ newline +:+ "B" +:+ newline +:+ "A" +:+ newline) →
       line ≠ "A" → line ∈ kept).
Proof.
  apply (removeLine_writes_other_lines no_faults "q.txt" "A" queue_ABA).
  - reflexivity.
  - vm_compute. reflexivity.
Defined.

(** C9: a successful [removeLine] removes every line equal to the target
    identifier, not only the first: the replacement file holds the
    lines of the queue file that differ from the identifier, in order,
    each ended by a newline, and nothing else; it is shorter than the
    queue file by the number of lines that held the identifier; the
    identifier is on no line written, and on no line of the replacement
    file as the scanner reads it back when no line of the queue file
    ends in a carriage return. *)
Theorem removeLine_drops_every_match io path content o o' data :
  files o !! path = Some data →
  removeLine io path content o = (o', None) →
  files o' !! path
  = Some (render (filter (λ line, line ≠ content) (scanLines data))) ∧
  (content ∉ filter (λ line, line ≠ content) (scanLines data)) ∧
  length (filter (λ line, line ≠ content) (scanLines data))
  + length (filter (λ line, line = content) (scanLines data))
  = length (scanLines data) ∧
  scanLines (render (filter (λ line, line ≠ content) (scanLines data)))
  = dropCR <$> filter (λ line, line ≠ content) (scanLines data) ∧
  (Forall (λ line, dropCR line = line) (scanLines data) →
   content ∉ scanLines (render (filter (λ line, line ≠ content) (scanLines data)))).
Proof.
  intros Hdata Hrun.
  assert (content ∉ filter (λ line, line ≠ content) (scanLines data)) as Hnot
    by (rewrite list_elem_of_filter; by intros [? _]).
  assert (scanLines (render (filter (λ line, line ≠ content) (scanLines data)))
          = dropCR <$> filter (λ line, line ≠ content) (scanLines data)) as Hback
    by (apply scanLines_render_CR, Forall_filter_keep, scanLines_noLF).
  split_and!; try done.
  - by eapply removeLine_success_lookup.
  - apply filter_partition_length.
  - intros Hcr. rewrite Hback, fmap_dropCR_id; [done|].
    by apply Forall_filter_keep.
Qed.

Lemma removeLine_drops_every_match_witness :
  length (filter (λ line, line = "A")
            (scanLines ("A" +:+ newline +:+ "B" +:+ newline +:+ "A" +:+ newline))) = 2 ∧
  files (removeLine no_faults "q.txt" "A" queue_ABA).1 !! "q.txt"
  = Some (render ["B"]) ∧
  files (removeLine no_faults "q.txt" "A" queue_ABA).1 !! "q.txt"
  = Some (render (filter (λ line, line ≠ "A")
                    (scanLines ("A" +:+ newline +:+ "B" +:+ newline
                                +:+ "A" +:+ newline)))).
Proof.
  split; [reflexivity|]. split; [by vm_compute|].
  apply (removeLine_drops_every_match no_faults "q.txt" "A" queue_ABA
           (removeLine no_faults "q.txt" "A" queue_ABA).1).
  - reflexivity.
  - vm_compute. reflexivity.
Defined.

(** C10, as the spec states it, fails: the scanner cuts one carriage
    return before the newline, and a carriage return is white space. In
    a queue file written as the lines ["A" ++ CR] and ["B"], the first
    line differs from the identifier ["A"] only by trailing white space,
    and [removeLine] for ["A"] removes it. In a queue file written as
    the one line ["A" ++ CR ++ CR], the line is kept but does not
    survive unchanged: it is written back with one carriage return. *)
Lemma removeLine_trims_carriage_return :
  paddedWith "A" ("A" +:+ String CR "") ∧
  files queue_CR !! "q.txt" = Some (render ["A" +:+ String CR ""; "B"]) ∧
  (removeLine no_faults "q.txt" "A" queue_CR).2 = None ∧
  files (removeLine no_faults "q.txt" "A" queue_CR).1 !! "q.txt"
  = Some (render ["B"]) ∧
  paddedWith "A" ("A" +:+ String CR (String CR "")) ∧
  files queue_two_CR !! "q.txt"
  = Some (render ["A" +:+ String CR (String CR "")]) ∧
  (removeLine no_faults "q.txt" "A" queue_two_CR).2 = None ∧
  files (removeLine no_faults "q.txt" "A" queue_two_CR).1 !! "q.txt"
  = Some (render ["A" +:+ String CR ""]).
Proof.
  split.
  { exists "", (String CR ""). split_and!; [done..|]. by right. }
  do 3 (split; [by vm_compute|]). split.
  { exists "", (String CR (String CR "")). split_and!; [done..|]. by right. }
  by vm_compute.
Qed.



(** ** One work item: [doRequest] *)

(** C3: when the request of a work item returns status 200, the queue
    file is replaced before the response body is decoded. [doRequest]
    calls [removeLine] on what the request left. If that fails, the
    result is its error and the body is never decoded: the events end
    with the request and the queue file holds what it held. If it
    succeeds, which it does when the queue file exists, no line of it
    is too long for the scanner and no file operation fails, the events
    end with the replacement followed by the decoding, and the queue
    file has lost the identifier's lines whatever the decoding gives: a
    body that does not decode makes the result the decoding error, with
    the queue file already rewritten. *)
Theorem doRequest_removes_before_decoding env params o o' r res :
  marshal_fails env = false →
  newrequest_fails env = false →
  client_do env = DoResponse res →
  StatusCode res = 200%Z →
  doRequest env params o = (o', r) →
  ∃ o1 removal,
    removeLine (io env) (Path params) (Imei params)
      (emit (EvSubscribe (Url params) (Token params)) o) = (o1, removal) ∧
    (∀ data, files o !! Path params = Some data → (scan "" data).2 = false →
       io env = no_faults → removal = None) ∧
    match removal with
    | Some e =>
        r = inl (ErrWrap "removing line from text file" e) ∧
        o' = o1 ∧
        events o' = EvSubscribe (Url params) (Token params) :: events o ∧
        files o' !! Path params = files o !! Path params
    | None =>
        ∃ data,
          files o !! Path params = Some data ∧
          o' = emit EvDecodeBody o1 ∧
          events o'
          = EvDecodeBody :: EvReplace (Path params)
              :: EvSubscribe (Url params) (Token params) :: events o ∧
          files o' !! Path params
          = Some (render (filter (λ line, line ≠ Imei params) (scanLines data))) ∧
          (Imei params ∉ filter (λ line, line ≠ Imei params) (scanLines data)) ∧
          r = match BodyJSON res with
              | None => inl (ErrWrap "decoding json response" ErrDecode)
              | Some result => inr result
              end
    end.
Proof.
  intros Hm Hn Hdo Hstatus. unfold doRequest. rewrite Hm, Hn, Hdo.
  destruct (decide (StatusCode res ≠ 200%Z)) as [?|_]; [done|].
  destruct (removeLine _ _ _ _) as [o1 removal] eqn:Hrm. intros Hrun.
  exists o1, removal. split; [done|]. split.
  { intros data Hdata Hscan Hio. revert Hrm. rewrite Hio.
    unfold removeLine, scanFile. simpl. rewrite Hdata.
    destruct (scan "" data) as [tokens long]. simpl in Hscan. subst long.
    by intros [= _ <-]. }
  destruct removal as [e|].
  - simplify_eq. by destruct (removeLine_failure _ _ _ _ _ _ Hrm) as (-> & -> & _).
  - destruct (removeLine_success _ _ _ _ _ Hrm) as (data & Hdata & _ & Hev).
    exists data. split; [done|].
    pose proof (removeLine_success_lookup _ _ _ _ _ _ Hdata Hrm) as Hnew.
    assert (o' = emit EvDecodeBody o1 ∧
            r = match BodyJSON res with
                | None => inl (ErrWrap "decoding json response" ErrDecode)
                | Some result => inr result
                end) as [-> ->] by (destruct (BodyJSON res); by simplify_eq).
    simpl. rewrite Hev. split_and!; try done.
    rewrite list_elem_of_filter. by intros [? _].
Qed.

Lemma doRequest_removes_before_decoding_witness :
  (doRequest ok_garbled params_A queue_ABA).2
  = inl (ErrWrap "decoding json response" ErrDecode) ∧
  files (doRequest ok_garbled params_A queue_ABA).1 !! "q.txt"
  = Some ("B" +:+ newline) ∧
  events (doRequest ok_garbled params_A queue_ABA).1
  = [EvDecodeBody; EvReplace "q.txt";
     EvSubscribe (Url params_A) (Token params_A)] ∧
  ∃ o1 removal,
    removeLine (io ok_garbled) (Path params_A) (Imei params_A)
      (emit (EvSubscribe (Url params_A) (Token params_A)) queue_ABA)
    = (o1, removal) ∧
    removal = None ∧
    (doRequest ok_garbled params_A queue_ABA).1 = emit EvDecodeBody o1.
Proof.
  split; [by vm_compute|]. split; [by vm_compute|]. split; [by vm_compute|].
  destruct (doRequest_removes_before_decoding ok_garbled params_A queue_ABA
              (doRequest ok_garbled params_A queue_ABA).1
              (doRequest ok_garbled params_A queue_ABA).2
              {| StatusCode := 200; Status := "200 OK"; BodyJSON := None |})
    as (o1 & removal & Hrm & Hok & Hcases); try reflexivity.
  assert (removal = None) as ->.
  { apply (Hok ("A" +:+ newline +:+ "B" +:+ newline +:+ "A" +:+ newline));
      reflexivity. }
  destruct Hcases as (data & _ & Ho' & _).
  exists o1, None. split; [exact Hrm|]. split; [reflexivity | exact Ho'].
Defined.

(** C4, as the spec states it, fails in three ways. The identifier is
    not appended when the failure log cannot be opened: the error is
    logged and nothing else happens. A failure can go with a changed
    queue file: a body that does not decode fails the work item after
    its lines have been removed; and when the queue file is the failure
    log itself a status other than 200 appends to it. *)
Lemma doRequest_failure_beside_the_claim :
  (doRequest server_error_unlogged params_A queue_ABA).2
  = inl (ErrUnexpectedResponse "500 Internal Server Error") ∧
  files (doRequest server_error_unlogged params_A queue_ABA).1 = files queue_ABA ∧
  events (doRequest server_error_unlogged params_A queue_ABA).1
  = [EvLog ErrInvalid; EvLog (ErrOpen failedLog);
     EvSubscribe (Url params_A) (Token params_A)] ∧
  (doRequest ok_garbled params_A queue_ABA).2
  = inl (ErrWrap "decoding json response" ErrDecode) ∧
  files queue_ABA !! Path params_A
  = Some ("A" +:+ newline +:+ "B" +:+ newline +:+ "A" +:+ newline) ∧
  files (doRequest ok_garbled params_A queue_ABA).1 !! Path params_A
  = Some ("B" +:+ newline) ∧
  (doRequest server_error params_log queue_is_log).2
  = inl (ErrUnexpectedResponse "500 Internal Server Error") ∧
  files queue_is_log !! Path params_log = Some ("A" +:+ newline) ∧
  files (doRequest server_error params_log queue_is_log).1 !! Path params_log
  = Some ("A" +:+ newline +:+ "A" +:+ newline).
Proof. by vm_compute. Qed.





(** ** Sums over the worker pool *)

Lemma total_app (f : worker → nat) (p : list worker) (wk : worker) :
  total f (p ++ [wk]) = total f p + f wk.
Proof. unfold total. rewrite sum_list_with_app. simpl. lia. Qed.

Lemma total_insert (f : worker → nat) (p : list worker) (i : nat) (wk wk' : worker) :
  p !! i = Some wk →
  total f (<[i := wk']> p) + f wk = total f p + f wk'.
Proof.
  unfold total. revert i. induction p as [|a p IH]; intros [|i] Hi; simplify_eq/=.
  - lia.
  - specialize (IH _ Hi). lia.
Qed.

Lemma total_lookup (f : worker → nat) (p : list worker) (i : nat) (wk : worker) :
  p !! i = Some wk → f wk ≤ total f p.
Proof.
  intros Hi. apply sum_list_with_in. by eapply list_elem_of_lookup_2.
Qed.

Lemma total_split (p : list worker) :
  Forall (λ wk, consumed wk = emitted wk + pending wk) p →
  total consumed p = total emitted p + total pending p.
Proof. unfold total. induction 1; simpl; lia. Qed.

Lemma total_running_all (p : list worker) :
  Forall (λ wk, running wk = 1) p → total running p = length p.
Proof. unfold total. induction 1; simpl; lia. Qed.

Lemma running_le_1 (wk : worker) : running wk ≤ 1.
Proof. unfold running. destruct (wpc wk); lia. Qed.

Lemma total_running_pos (p : list worker) :
  0 < total running p → ∃ i wk, p !! i = Some wk ∧ running wk = 1.
Proof.
  unfold total. induction p as [|a p IH]; simpl; [lia|]. intros Hpos.
  pose proof (running_le_1 a).
  destruct (decide (running a = 1)) as [Ha|Ha].
  - by exists 0, a.
  - destruct IH as (i & wk & Hi & Hwk); [lia|]. by exists (S i), wk.
Qed.

(** ** Events of the collaborators *)

Lemma delivered_doRequest env params o :
  delivered_in (events (doRequest env params o).1) = delivered_in (events o).
Proof.
  unfold doRequest, appendToFile.
  destruct (marshal_fails env); [done|].
  destruct (newrequest_fails env); [done|].
  destruct (client_do env) as [[]|res]; [by destruct (append env)..|].
  destruct (decide (StatusCode res ≠ 200%Z)); [by destruct (append env)|].
  destruct (removeLine _ _ _ _) as [o1 [e|]] eqn:Hrm.
  - destruct (removeLine_failure _ _ _ _ _ _ Hrm) as (Hev & _).
    simpl. by rewrite Hev.
  - destruct (removeLine_success _ _ _ _ _ Hrm) as (_ & _ & _ & Hev).
    destruct (BodyJSON res); simpl; by rewrite Hev.
Qed.

Lemma getToken_quiet svc cred o o' r :
  getToken svc cred o = (o', r) →
  files o' = files o ∧
  delivered_in (events o') = delivered_in (events o) ∧
  (Forall startup_event (events o) → Forall startup_event (events o')) ∧
  (token_fails svc ↔ ∃ e, r = inl e) ∧
  (∀ token, r = inr token → EvTokenRequest ∈ events o').
Proof.
  unfold getToken. intros H.
  destruct svc; simplify_eq/=; split_and!; try done;
    try (intros ?; by repeat constructor);
    try (intros ? _; apply elem_of_cons; by left); naive_solver.
Qed.

Lemma doRequest_events_grow env params o e :
  e ∈ events o → e ∈ events (doRequest env params o).1.
Proof.
  intros He. unfold doRequest, appendToFile.
  destruct (marshal_fails env); [done|].
  destruct (newrequest_fails env); [done|].
  destruct (client_do env) as [[]|res]; simpl;
    [destruct (append env); simpl; rewrite !elem_of_cons; by auto 6..|].
  destruct (decide (StatusCode res ≠ 200%Z)); simpl;
    [destruct (append env); simpl; rewrite !elem_of_cons; by auto 6|].
  destruct (removeLine _ _ _ _) as [o1 [e1|]] eqn:Hrm.
  - destruct (removeLine_failure _ _ _ _ _ _ Hrm) as (Hev & _).
    simpl. rewrite Hev. simpl. rewrite elem_of_cons. auto.
  - destruct (removeLine_success _ _ _ _ _ Hrm) as (_ & _ & _ & Hev).
    destruct (BodyJSON res); simpl; rewrite Hev; simpl;
      rewrite !elem_of_cons; auto.
Qed.

(** ** The invariant holds along every run *)

Lemma init_invariant (w : world) : invariant w (init w).
Proof.
  constructor; simpl; try done.
  - by left.
  - by left.
  - split; [done | tauto].
Qed.

Ltac open_invariant :=
  constructor; unfold enqueued, delivered in *; simpl in *; try done.

Lemma closer_step_invariant w s s' :
  invariant w s → exited s = None → closer_step s = Some s' → invariant w s'.
Proof.
  intros [] Hex. unfold closer_step.
  destruct (closer s) as [[]|] eqn:Hc; [| |done..].
  - case_decide as Hwg; [|done]. intros [= <-]. open_invariant. tauto.
  - unfold close. destruct (closed (results s)) eqn:Hcl; [naive_solver|].
    intros [= <-]. open_invariant; naive_solver.
Qed.

Lemma worker_values (wk : worker) :
  match wpc wk with
  | WRange => running wk = 1 ∧ pending wk = 0 ∧ worker_weight wk = 1
  | WRequest _ => running wk = 1 ∧ pending wk = 1 ∧ worker_weight wk = 4
  | WSend _ => running wk = 1 ∧ pending wk = 1 ∧ worker_weight wk = 3
  | WReturned => running wk = 0 ∧ pending wk = 0 ∧ worker_weight wk = 0
  end.
Proof. unfold running, pending, worker_weight. by destruct (wpc wk). Qed.

(** What replacing the [i]-th worker does to the sums. *)
Ltac replace_worker Hi wk' :=
  let Hr := fresh "Hnew" in
  pose proof (conj (total_insert running _ _ _ wk' Hi)
           (conj (total_insert pending _ _ _ wk' Hi)
           (conj (total_insert consumed _ _ _ wk' Hi)
           (conj (total_insert emitted _ _ _ wk' Hi)
                 (total_insert worker_weight _ _ _ wk' Hi))))) as Hr;
  simpl in Hr;
  destruct Hr as (? & ? & ? & ? & ?).

Ltac split_pc :=
  repeat match goal with
         | |- context [match pc ?s with _ => _ end] => destruct (pc s) eqn:?
         | |- context [match closer ?s with _ => _ end] =>
             destruct (closer s) as [[]|] eqn:?
         | |- context [dispatching (pc ?s)] => destruct (pc s) eqn:?
         | H : context [match closer ?s with _ => _ end] |- _ =>
             destruct (closer s) as [[]|] eqn:?
         end.

Ltac use_eqns :=
  repeat match goal with
         | H : buf ?c = _ |- context [buf ?c] => rewrite H
         | H : closed ?c = _ |- context [closed ?c] => rewrite H
         | H : exited ?s = _ |- context [exited ?s] => rewrite H
         end.

Ltac crush :=
  split_pc; use_eqns; rewrite ?length_insert, ?length_app in *; simpl in *;
  try done; try lia;
  try (apply Forall_insert; [done | simpl; lia]);
  try (apply Forall_app; split; [done | by repeat constructor]);
  try (intuition (try done; try lia; try congruence); fail);
  try (intros; simplify_eq; simpl in *; lia);
  try match goal with
      | H : total consumed _ = 0 → _ |- _ → _ =>
          let Hc := fresh "Hc" in
          intros Hc;
          first [ exfalso; lia
                | destruct H as [? ?]; [lia|];
                  split; [congruence|];
                  repeat (apply Forall_cons; split; [exact I|]); done ]
      | H : _ ∧ EvTokenRequest ∈ _ |- _ ∧ EvTokenRequest ∈ _ =>
          destruct H; split; [done|]; rewrite ?elem_of_cons; auto
      | |- _ ∧ ∃ _, _ => naive_solver
      | |- (∃ _, _) ∧ _ => naive_solver
      | H : Forall _ _ ∨ _ |- Forall _ _ ∨ _ =>
          destruct H as [H|[? ?]];
          [ left; first [ by apply Forall_insert
                        | apply Forall_app; split; [done | by repeat constructor] ]
          | first [ congruence | right; split; congruence ] ]
      end.

Lemma doWork_step_invariant w i env s s' :
  invariant w s → exited s = None → doWork_step i env s = Some s' →
  invariant w s'.
Proof.
  intros Hinv Hex. unfold doWork_step.
  destruct (pool s !! i) as [wk|] eqn:Hi; [|done].
  pose proof (total_lookup running _ _ _ Hi) as Hrun.
  pose proof (total_lookup pending _ _ _ Hi) as Hpend.
  pose proof (total_lookup consumed _ _ _ Hi) as Hcons.
  pose proof (total_split _ (inv_worker _ _ Hinv)) as Hsplit.
  pose proof (Forall_lookup_1 _ _ _ _ (inv_worker _ _ Hinv) Hi) as Hwk.
  pose proof (worker_values wk) as Hval.
  destruct Hinv.
  destruct (wpc wk) eqn:Hpc; [| | |done]; destruct Hval as (Hr & Hp & _).
  - unfold recv. destruct (buf (work s)) as [|params rest] eqn:Hbuf.
    + destruct (closed (work s)) eqn:Hcl; [|done].
      case_decide; [lia|]. intros [= <-].
      replace_worker Hi {| wpc := WReturned; consumed := consumed wk;
                           emitted := emitted wk |}.
      open_invariant; crush.
    + intros [= <-].
      replace_worker Hi {| wpc := WRequest params; consumed := S (consumed wk);
                           emitted := emitted wk |}.
      open_invariant; crush.
  - destruct (doRequest env params (sys s)) as [o r] eqn:Hreq. intros [= <-].
    replace_worker Hi {| wpc := WSend (toResult r); consumed := consumed wk;
                         emitted := emitted wk |}.
    pose proof (delivered_doRequest env params (sys s)) as Hdel.
    pose proof (doRequest_events_grow env params (sys s) EvTokenRequest) as Hgrow.
    rewrite Hreq in Hdel, Hgrow. simpl in Hdel, Hgrow.
    open_invariant; crush.
  - unfold send. destruct (closed (results s)) eqn:Hcl.
    { intros _. exfalso. destruct (closer s) as [[]|]; naive_solver lia. }
    case_decide; [|done]. intros [= <-].
    replace_worker Hi {| wpc := WRange; consumed := consumed wk;
                         emitted := S (emitted wk) |}.
    open_invariant; crush.
Qed.

Lemma main_step_invariant w s s' :
  invariant w s → exited s = None → main_step w s = Some s' → invariant w s'.
Proof.
  intros Hinv Hex. unfold main_step.
  pose proof (total_split _ (inv_worker _ _ Hinv)) as Hsplit.
  destruct Hinv. unfold enqueued, delivered in *.
  destruct (pc s) eqn:Hpc.
  - (* MStart *)
    destruct (args w) as [|arg0 [|arg1 [|]]] eqn:Hargs.
    1,2,4: intros [= <-]; open_invariant; crush.
    assert (files (sys s) = disk w) as Hfiles
      by (apply inv_quiet0; by rewrite inv_pool0).
    rewrite (readFile_files _ _ (sys s) (sys (init w))) by done.
    destruct (readFile (read_error w) arg1 (sys (init w)))
      as [lines [e|]] eqn:Hread.
    { intros [= <-]; open_invariant; crush.
      split; [done|]. exists arg0, arg1. by rewrite Hread. }
    destruct (readFile_ok _ _ _ _ Hread) as (data & Hdata & Hre & -> & _).
    simpl in Hdata.
    destruct (Atoi arg0) as [n|] eqn:Hatoi.
    2: { intros [= <-]; open_invariant; crush. }
    intros [= <-]. rewrite inv_pool0 in *. open_invariant; crush.
    right. by exists arg0, arg1, data.
  - (* MSpawn *)
    case_decide; intros [= <-].
    + pose proof (total_app running (pool s)
                    {| wpc := WRange; consumed := 0; emitted := 0 |}) as T1.
      pose proof (total_app consumed (pool s)
                    {| wpc := WRange; consumed := 0; emitted := 0 |}) as T2.
      pose proof (total_app emitted (pool s)
                    {| wpc := WRange; consumed := 0; emitted := 0 |}) as T3.
      simpl in T1, T2, T3.
      open_invariant; crush.
    + open_invariant; crush.
  - (* MSecrets *)
    destruct (secrets w) as [[sp cred]|] eqn:Hsec; intros [= <-];
      open_invariant; crush.
  - (* MToken *)
    destruct (getToken _ _ _) as [o [e|tok]] eqn:Htok;
      destruct (getToken_quiet _ _ _ _ _ Htok) as (Hf & Hd & Hq & Hfail & Hcall);
      assert (total consumed (pool s) = 0 →
              files o = disk w ∧ Forall startup_event (events o)) as Hquiet
        by (intros Hc; destruct (inv_quiet0 Hc); split; [congruence | auto]);
      clear inv_quiet0;
      intros [= <-]; open_invariant; crush.
    split; [|by eapply Hcall]. intros Hbad. apply Hfail in Hbad as [? ?]. done.
  - (* MGo *)
    intros [= <-]. open_invariant; crush.
  - (* MEnqueue *)
    destruct rest as [|imei rest].
    + intros [= <-]. open_invariant; crush.
    + unfold send. destruct (closed (work s)) eqn:Hcl; [done|].
      case_decide; [|done]. intros [= <-].
      pose proof (inv_rest0 _ _ _ eq_refl) as Hlen. simpl in Hlen.
      open_invariant; crush.
  - (* MCloseWork *)
    unfold close. destruct (closed (work s)) eqn:Hcl; [done|].
    intros [= <-]. open_invariant; crush.
  - (* MDrain *)
    unfold recv. destruct (buf (results s)) as [|r rest] eqn:Hbuf.
    + destruct (closed (results s)) eqn:Hcl; [|done].
      intros [= <-]. open_invariant; crush.
    + intros [= <-]. destruct (err r); open_invariant; crush.
  - (* MDone *)
    intros [= <-]. open_invariant; crush.
Qed.

Lemma step_invariant w l s s' :
  invariant w s → step w l s = Some s' → invariant w s'.
Proof.
  unfold step. intros Hinv. destruct (exited s) eqn:Hex; [done|].
  destruct l; eauto using main_step_invariant, closer_step_invariant,
    doWork_step_invariant.
Qed.

Lemma exec_invariant w sched s s' :
  invariant w s → exec w sched s = Some s' → invariant w s'.
Proof.
  revert s. induction sched as [|l sched IH]; intros s Hinv; simpl.
  - by intros [= <-].
  - destruct (step w l s) as [s1|] eqn:Hstep; [|done].
    eauto using step_invariant.
Qed.

Lemma run_invariant w sched s :
  exec w sched (init w) = Some s → invariant w s.
Proof. apply exec_invariant, init_invariant. Qed.

(** ** Every step uses up the measure *)

Lemma main_step_measure w s s' :
  exited s = None → pc s ≠ MStart → main_step w s = Some s' →
  measure s' < measure s.
Proof.
  intros Hex Hpc. unfold main_step, measure. rewrite Hex.
  destruct (pc s) eqn:Hpcs; [done|..].
  - case_decide; intros [= <-]; unfold main_weight; simpl; rewrite ?Hpcs, ?Hex.
    + rewrite total_app. simpl. lia.
    + lia.
  - destruct (secrets w) as [[]|]; intros [= <-]; unfold main_weight; simpl;
      rewrite ?Hpcs, ?Hex; lia.
  - destruct (getToken _ _ _) as [o [|]]; intros [= <-]; unfold main_weight;
      simpl; rewrite ?Hpcs, ?Hex; lia.
  - intros [= <-]; unfold main_weight; simpl; rewrite ?Hpcs, ?Hex; lia.
  - destruct rest as [|imei rest].
    + intros [= <-]; unfold main_weight; simpl; rewrite ?Hpcs, ?Hex; lia.
    + unfold send. destruct (closed (work s)); [intros [= <-]; simpl; lia|].
      case_decide; [|done]. intros [= <-]; unfold main_weight; simpl;
        rewrite ?Hpcs, ?Hex, ?length_app; simpl; lia.
  - unfold close. destruct (closed (work s)); intros [= <-];
      unfold main_weight; simpl; rewrite ?Hpcs, ?Hex; lia.
  - unfold recv. destruct (buf (results s)) as [|r rest] eqn:Hbuf.
    + destruct (closed (results s)); [|done]. intros [= <-];
        unfold main_weight; simpl; rewrite ?Hpcs, ?Hex, ?Hbuf; simpl; lia.
    + intros [= <-]. destruct (err r); unfold main_weight; simpl;
        rewrite ?Hpcs, ?Hex; simpl; lia.
  - intros [= <-]. simpl. lia.
Qed.

Lemma closer_step_measure s s' :
  exited s = None → closer_step s = Some s' → measure s' < measure s.
Proof.
  intros Hex. unfold closer_step, measure. rewrite Hex.
  destruct (closer s) as [[]|] eqn:Hc; [| |done..].
  - case_decide; [|done]. intros [= <-]. unfold main_weight. simpl.
    rewrite Hex. simpl. lia.
  - unfold close. destruct (closed (results s)); intros [= <-];
      unfold main_weight; simpl; rewrite ?Hex; simpl; lia.
Qed.

Lemma doWork_step_measure i env s s' :
  exited s = None → doWork_step i env s = Some s' → measure s' < measure s.
Proof.
  intros Hex. unfold doWork_step, measure. rewrite Hex.
  destruct (pool s !! i) as [wk|] eqn:Hi; [|done].
  pose proof (worker_values wk) as Hval.
  destruct (wpc wk) eqn:Hpc; [| | |done]; destruct Hval as (_ & _ & Hw).
  - unfold recv. destruct (buf (work s)) as [|params rest] eqn:Hbuf.
    + destruct (closed (work s)); [|done].
      case_decide; intros [= <-]; [simpl; lia|].
      replace_worker Hi {| wpc := WReturned; consumed := consumed wk;
                           emitted := emitted wk |}.
      unfold main_weight. simpl. rewrite Hex, Hbuf. simpl. lia.
    + intros [= <-].
      replace_worker Hi {| wpc := WRequest params; consumed := S (consumed wk);
                           emitted := emitted wk |}.
      unfold main_weight. simpl. rewrite Hex. simpl. lia.
  - destruct (doRequest env params (sys s)) as [o r]. intros [= <-].
    replace_worker Hi {| wpc := WSend (toResult r); consumed := consumed wk;
                         emitted := emitted wk |}.
    unfold main_weight. simpl. rewrite Hex. simpl. lia.
  - unfold send. destruct (closed (results s)); [intros [= <-]; simpl; lia|].
    case_decide; [|done]. intros [= <-].
    replace_worker Hi {| wpc := WRange; consumed := consumed wk;
                         emitted := S (emitted wk) |}.
    unfold main_weight. simpl. rewrite Hex, length_app. simpl. lia.
Qed.

Lemma step_measure w l s s' :
  pc s ≠ MStart → step w l s = Some s' → measure s' < measure s.
Proof.
  unfold step. intros Hpc. destruct (exited s) eqn:Hex; [done|].
  destruct l; eauto using main_step_measure, closer_step_measure,
    doWork_step_measure.
Qed.

Lemma step_leaves_start w l s s' :
  pc s ≠ MStart → step w l s = Some s' → pc s' ≠ MStart.
Proof.
  unfold step. intros Hpc. destruct (exited s); [done|]. destruct l.
  - unfold main_step. intros Hstep.
    repeat (case_match; simplify_eq); simpl; try done; congruence.
  - unfold closer_step. repeat case_match; intros; by simplify_eq.
  - unfold doWork_step. repeat case_match; intros; by simplify_eq.
Qed.

Lemma exec_measure w sched s s' :
  pc s ≠ MStart → exec w sched s = Some s' →
  length sched + measure s' ≤ measure s.
Proof.
  revert s. induction sched as [|l sched IH]; intros s Hpc; simpl.
  - intros [= <-]. lia.
  - destruct (step w l s) as [s1|] eqn:Hstep; [|done]. intros Hrun.
    pose proof (step_measure _ _ _ _ Hpc Hstep).
    pose proof (IH _ (step_leaves_start _ _ _ _ Hpc Hstep) Hrun). lia.
Qed.

Lemma exec_exited w sched s s' :
  is_Some (exited s) → exec w sched s = Some s' → sched = [].
Proof.
  intros [r Hr]. destruct sched as [|l sched]; [done|]. simpl.
  unfold step. by rewrite Hr.
Qed.

Lemma run_bounded w sched s :
  exec w sched (init w) = Some s → length sched ≤ bound w.
Proof.
  unfold bound. destruct sched as [|l sched]; [simpl; lia|].
  change (exec w (l :: sched) (init w))
    with (match step w l (init w) with
          | Some s1 => exec w sched s1
          | None => None
          end).
  destruct l; [|done..].
  change (step w LMain (init w)) with (main_step w (init w)).
  destruct (main_step w (init w)) as [s1|] eqn:Hstep; [|done]. intros Hrun.
  destruct (exited s1) as [r|] eqn:Hex.
  - apply exec_exited in Hrun as ->; [simpl; lia | by rewrite Hex].
  - assert (pc s1 ≠ MStart) as Hpc.
    { revert Hstep Hex. unfold main_step. simpl.
      repeat case_match; intros; by simplify_eq. }
    pose proof (exec_measure _ _ _ _ Hpc Hrun). simpl. lia.
Qed.

(** ** Some goroutine can always move *)

Lemma progress w s :
  invariant w s → exited s = None → ∃ l s', step w l s = Some s'.
Proof.
  intros Hinv Hex.
  pose proof (total_split _ (inv_worker _ _ Hinv)) as Hsplit.
  destruct Hinv. unfold step, enqueued, delivered in *. rewrite Hex.
  assert ((∃ x, main_step w s = Some x) →
          ∃ l s', match l with
                  | LMain => main_step w s
                  | LCloser => closer_step s
                  | LWorker i env => doWork_step i env s
                  end = Some s') as Hmain
    by (intros [x Hx]; by exists LMain, x).
  destruct (pc s) eqn:Hpc.
  1-5,9: clear -Hmain Hpc; apply Hmain; unfold main_step; rewrite Hpc;
    repeat case_match; eauto.
  2: { apply Hmain. unfold main_step, close.
       rewrite Hpc, inv_work_closed0. eauto. }
  - (* MEnqueue *)
    apply Hmain. unfold main_step. rewrite Hpc.
    destruct rest as [|imei rest]; [eauto|].
    pose proof (inv_rest0 _ _ _ eq_refl) as Hlen. simpl in Hlen.
    destruct inv_start0
      as [|(? & ? & ? & _ & _ & _ & _ & _ & _ & Hcap & _)]; [done|].
    unfold send. rewrite inv_work_closed0. simpl in inv_work0.
    rewrite decide_True by lia. eauto.
  - (* MDrain *)
    destruct (buf (results s)) as [|r rest] eqn:Hbuf.
    2: { apply Hmain. unfold main_step, recv. rewrite Hpc, Hbuf. eauto. }
    destruct (closed (results s)) eqn:Hcl.
    { apply Hmain. unfold main_step, recv. rewrite Hpc, Hbuf, Hcl. eauto. }
    clear Hmain.
    destruct (closer s) as [[]|] eqn:Hc; [| |naive_solver..].
    + destruct (decide (wg s = 0%Z)) as [Hwg|Hwg].
      { exists LCloser. unfold closer_step. rewrite Hc, decide_True by done.
        eauto. }
      destruct (total_running_pos (pool s)) as (i & wk & Hi & Hrun); [lia|].
      pose proof (worker_values wk) as Hval.
      pose proof (total_lookup pending _ _ _ Hi) as Hpend.
      exists (LWorker i timed_out). unfold doWork_step. rewrite Hi.
      unfold running in Hrun.
      destruct (wpc wk) eqn:Hwpc; [| | |done].
      * unfold recv. rewrite inv_work_closed0.
        destruct (buf (work s)); [case_decide|]; eauto.
      * destruct (doRequest _ _ _). eauto.
      * destruct inv_start0
          as [|(? & ? & ? & _ & _ & _ & _ & _ & _ & _ & Hcap)]; [done|].
        unfold send. rewrite Hcl, Hbuf. rewrite decide_True; [eauto|].
        simpl in *. lia.
    + exists LCloser. unfold closer_step, close. rewrite Hc, Hcl. eauto.
Qed.

Lemma exec_app w sched1 sched2 s s1 :
  exec w sched1 s = Some s1 →
  exec w (sched1 ++ sched2) s = exec w sched2 s1.
Proof.
  revert s. induction sched1 as [|l sched1 IH]; intros s; simpl.
  - by intros [= <-].
  - destruct (step w l s); [apply IH | done].
Qed.

Lemma completes_from w (fuel : nat) s :
  invariant w s → pc s ≠ MStart → measure s ≤ fuel →
  ∃ sched s', exec w sched s = Some s' ∧ is_Some (exited s').
Proof.
  revert s. induction fuel as [|fuel IH]; intros s Hinv Hpc Hfuel.
  - exists [], s. split; [done|]. unfold measure in Hfuel.
    destruct (exited s); [eauto | lia].
  - destruct (exited s) as [r|] eqn:Hex.
    { exists [], s. split; [done|]. rewrite Hex. eauto. }
    destruct (progress _ _ Hinv Hex) as (l & s1 & Hstep).
    pose proof (step_measure _ _ _ _ Hpc Hstep).
    destruct (IH s1) as (sched & s' & Hrun & Hdone);
      [by eapply step_invariant | by eapply step_leaves_start | lia |].
    exists (l :: sched), s'. simpl. by rewrite Hstep.
Qed.

Lemma completes w sched s :
  exec w sched (init w) = Some s →
  ∃ sched' s', exec w (sched ++ sched') (init w) = Some s' ∧ is_Some (exited s').
Proof.
  intros Hrun. pose proof (run_invariant _ _ _ Hrun) as Hinv.
  assert (∃ sched' s', exec w sched' s = Some s' ∧ is_Some (exited s'))
    as (sched' & s' & Hrun' & Hdone).
  { destruct (exited s) as [r|] eqn:Hex.
    { exists [], s. split; [done|]. rewrite Hex. eauto. }
    assert (pc s = MStart ∨ pc s ≠ MStart) as [Hpc|Hpc]
      by (destruct (pc s); (by left) || by right);
      [|by eapply completes_from].
    destruct (progress _ _ Hinv Hex) as (l & s1 & Hstep).
    destruct (exited s1) as [r|] eqn:Hex1.
    { exists [l], s1. simpl. rewrite Hstep. split; [done|]. rewrite Hex1. eauto. }
    assert (pc s1 ≠ MStart) as Hpc1.
    { revert Hstep Hex1. unfold step. rewrite Hex.
      destruct l.
      - unfold main_step. rewrite Hpc.
        repeat case_match; intros; by simplify_eq.
      - unfold closer_step. destruct Hinv. rewrite Hpc in *.
        destruct (closer s) as [[]|]; naive_solver.
      - unfold doWork_step. destruct Hinv. rewrite Hpc in *.
        by rewrite inv_pool0. }
    destruct (completes_from w (measure s1) s1) as (sched' & s' & Hrun' & Hdone);
      [by eapply step_invariant | done | done |].
    exists (l :: sched'), s'. simpl. by rewrite Hstep. }
  exists sched', s'. by rewrite (exec_app _ _ _ _ _ Hrun).
Qed.

(** ** What the invariant says of particular states *)

Lemma total_zero (f : worker → nat) (p : list worker) :
  total f p = 0 → Forall (λ wk, f wk = 0) p.
Proof.
  unfold total. induction p as [|a p IH]; simpl; [constructor|].
  intros H. constructor; [lia | apply IH; lia].
Qed.

Lemma finished_run w s :
  invariant w s → exited s = Some ExitDone →
  closed (results s) = true ∧ buf (results s) = [] ∧
  head (events (sys s)) = Some (EvPrintln done_marker) ∧
  enqueued s = length (assets s) ∧
  delivered s = total emitted (pool s) ∧
  Forall (λ wk, wpc wk = WReturned ∧ consumed wk = emitted wk) (pool s).
Proof.
  intros Hinv Hex. destruct Hinv. rewrite Hex in *.
  destruct inv_exit0 as [Hpc Hhead].
  destruct (inv_done0 Hpc) as [Hcl Hbuf].
  unfold enqueued. rewrite Hpc, Hbuf in *. simpl in *.
  split_and!; try done.
  assert (wg s = 0%Z) as Hwg
    by (destruct (closer s) as [[]|]; intuition congruence).
  assert (total running (pool s) = 0) as Hrun by lia.
  apply total_zero in Hrun. rewrite Forall_forall in Hrun, inv_worker0.
  apply Forall_forall. intros wk Hin.
  specialize (Hrun wk Hin). specialize (inv_worker0 wk Hin).
  unfold running, pending in *.
  destruct (wpc wk); (done || (split; [done | lia])).
Qed.

Lemma finished_work w s :
  invariant w s → exited s = Some ExitDone → (1 ≤ workers s)%Z →
  buf (work s) = [] ∧ total consumed (pool s) = length (assets s).
Proof.
  intros Hinv Hex Hn.
  destruct (finished_run _ _ Hinv Hex) as (_ & _ & _ & Henq & _ & Hret).
  destruct Hinv. rewrite Hex in *. destruct inv_exit0 as [Hpc _].
  rewrite Hpc in *. destruct inv_returned0 as [Hall|[_ Hempty]].
  - exfalso. destruct (pool s) as [|wk p]; simpl in *; [lia|].
    apply Forall_cons in Hall as [Hwk _], Hret as [[Hwk' _] _].
    unfold running in Hwk. by rewrite Hwk' in Hwk.
  - rewrite Hempty, Henq in *. simpl in *. split; [done | lia].
Qed.

Lemma started_run_ends_done w s r :
  invariant w s → starts w → exited s = Some r → r = ExitDone.
Proof.
  intros Hinv (arg0 & arg1 & lines & n & sp & Hargs & Hread & Hatoi
               & Hsec & Htok) Hex.
  destruct Hinv. rewrite Hex in *. destruct r; try done; exfalso.
  - destruct inv_exit0 as [_ Hno]. by eapply Hno.
  - destruct inv_exit0 as (_ & a0 & a1 & Ha & [e He]).
    assert (a1 = arg1) as -> by congruence. by rewrite Hread in He.
  - destruct inv_exit0 as (_ & a0 & a1 & Ha & Hnone). simplify_eq. congruence.
  - destruct inv_exit0 as [_ Hnone]. congruence.
  - by destruct inv_exit0 as [_ Hfail].
Qed.

Lemma count_of_run w s arg0 arg1 n :
  invariant w s → args w = [arg0; arg1] → Atoi arg0 = Some n →
  pc s = MStart ∨ workers s = n.
Proof.
  intros [] Hargs Hatoi.
  destruct inv_start0 as [|(a0 & a1 & ? & Ha & _ & _ & Hn & _)]; [by left|].
  right. simplify_eq. congruence.
Qed.

Lemma idle_pool w s :
  invariant w s → ¬ dispatching (pc s) → (∀ sp tk, pc s ≠ MGo sp tk) →
  buf (work s) = [] ∧
  Forall (λ wk, wpc wk = WRange ∧ consumed wk = 0 ∧ emitted wk = 0) (pool s) ∧
  files (sys s) = disk w ∧ Forall startup_event (events (sys s)).
Proof.
  intros Hinv Hpc Hgo.
  pose proof (total_split _ (inv_worker _ _ Hinv)) as Hsplit.
  destruct Hinv. unfold enqueued in *.
  assert (length (buf (work s)) + total consumed (pool s) = 0) as Hzero
    by (destruct (pc s); simpl in *; done || lia || by exfalso; eapply Hgo).
  assert (closed (work s) = false) as Hopen
    by (destruct (pc s); simpl in *; done).
  split_and!.
  - destruct (buf (work s)); [done | simpl in *; lia].
  - destruct inv_returned0 as [Hall|[? _]]; [|congruence].
    assert (total consumed (pool s) = 0) as Hc by lia.
    assert (total emitted (pool s) = 0) as He by lia.
    assert (total pending (pool s) = 0) as Hp by lia.
    apply total_zero in Hc, He, Hp. rewrite Forall_forall in Hall, Hc, He, Hp.
    apply Forall_forall. intros wk Hin.
    specialize (Hall wk Hin). specialize (Hc wk Hin).
    specialize (He wk Hin). specialize (Hp wk Hin).
    unfold running, pending in *. destruct (wpc wk); done.
  - apply inv_quiet0. lia.
  - apply inv_quiet0. lia.
Qed.

(** ** Before the dispatch only [main] moves *)

Lemma main_moves_before_dispatch w s :
  ¬ dispatching (pc s) → ∃ s', main_step w s = Some s'.
Proof.
  intros Hpc. unfold main_step.
  destruct (pc s); simpl in Hpc; try tauto; repeat case_match; eauto.
Qed.

Lemma only_main_moves w l s s' :
  invariant w s → ¬ dispatching (pc s) → (∀ sp tk, pc s ≠ MGo sp tk) →
  step w l s = Some s' → l = LMain.
Proof.
  intros Hinv Hnd Hgo. unfold step.
  destruct (exited s); [done|].
  destruct (idle_pool _ _ Hinv Hnd Hgo) as (Hbuf & Hpool & _).
  destruct l as [| |i env]; [done| |].
  - unfold closer_step. pose proof (inv_closer _ _ Hinv) as Hc.
    destruct (closer s) as [[]|]; [exfalso; tauto..|done].
  - unfold doWork_step. destruct (pool s !! i) as [wk|] eqn:Hi; [|done].
    rewrite Forall_forall in Hpool.
    destruct (Hpool wk) as (-> & _); [by eapply list_elem_of_lookup_2|].
    unfold recv. rewrite Hbuf, (inv_work_closed _ _ Hinv).
    by destruct (pc s).
Qed.

Lemma token_failure_before_dispatch w s :
  token_fails (token_service w) → invariant w s →
  ¬ dispatching (pc s) ∧ ∀ sp tk, pc s ≠ MGo sp tk.
Proof.
  intros Hfail Hinv. pose proof (inv_token _ _ Hinv) as Htok.
  split; [|intros sp tk Hpc]; destruct (pc s); simpl in *; tauto || done.
Qed.

Lemma token_failure_only_main w sched s s' :
  token_fails (token_service w) → invariant w s →
  exec w sched s = Some s' → Forall (λ l, l = LMain) sched.
Proof.
  intros Hfail. revert s.
  induction sched as [|l sched IH]; intros s Hinv; simpl; [constructor|].
  destruct (step w l s) as [s1|] eqn:Hstep; [|done]. intros Hrun.
  destruct (token_failure_before_dispatch _ _ Hfail Hinv) as [Hnd Hgo].
  constructor; [by eapply only_main_moves|].
  eapply IH; [by eapply step_invariant | done].
Qed.

(** A run that ends on the token has just printed the error. *)
Lemma step_exit_token w l s s' :
  step w l s = Some s' → exited s' = Some ExitToken →
  ∃ e, head (events (sys s')) = Some (EvPrintln (MsgError e)).
Proof.
  unfold step. destruct (exited s) eqn:Hex; [done|].
  destruct l as [| |i env].
  - unfold main_step, send, recv, close.
    repeat case_match; intros; simplify_eq/=; try congruence; eauto.
  - unfold closer_step, close.
    repeat case_match; intros; simplify_eq/=; congruence.
  - unfold doWork_step, send, recv.
    repeat case_match; intros; simplify_eq/=; congruence.
Qed.

Lemma exec_exit_token w sched s s' :
  exited s = None → exec w sched s = Some s' → exited s' = Some ExitToken →
  ∃ e, head (events (sys s')) = Some (EvPrintln (MsgError e)).
Proof.
  revert s. induction sched as [|l sched IH]; intros s Hex; simpl.
  - intros [= <-]. congruence.
  - destruct (step w l s) as [s1|] eqn:Hstep; [|done]. intros Hrun Hexit.
    destruct (exited s1) as [r|] eqn:Hex1; [|by eapply IH].
    pose proof Hrun as Hsched.
    apply exec_exited in Hsched as ->; [|by rewrite Hex1].
    simplify_eq/=. by eapply step_exit_token.
Qed.

Lemma token_failure_ends_on_token w s r :
  invariant w s → reaches_token w → token_fails (token_service w) →
  exited s = Some r → r = ExitToken.
Proof.
  intros Hinv (arg0 & arg1 & lines & n & sp & Hargs & Hread & Hatoi & Hsec)
    Hfail Hex.
  pose proof (inv_token _ _ Hinv) as Htok.
  pose proof (inv_exit _ _ Hinv) as Hexit. rewrite Hex in Hexit.
  destruct r; try done; exfalso.
  - destruct Hexit as [_ Hno]. by eapply Hno.
  - destruct Hexit as (_ & a0 & a1 & Ha & [e He]).
    assert (a1 = arg1) as -> by congruence. by rewrite Hread in He.
  - destruct Hexit as (_ & a0 & a1 & Ha & Hnone). simplify_eq. congruence.
  - destruct Hexit as [_ Hnone]. congruence.
  - destruct Hexit as [Hpc _]. rewrite Hpc in Htok. tauto.
Qed.

(** ** The run of [main] *)

(** C1, as the spec states it, fails: with the worker count ["0"] the
    run is not aborted with a configuration error before any HTTP call.
    It calls the token endpoint and returns normally after printing the
    done marker. *)
Lemma zero_workers_run_to_done :
  Atoi "0" = Some 0%Z ∧
  (exited <$> exec (world_of "0" (TokenOk "t")) sched_no_worker
                (init (world_of "0" (TokenOk "t"))))
  = Some (Some ExitDone) ∧
  (events ∘ sys <$> exec (world_of "0" (TokenOk "t")) sched_no_worker
                      (init (world_of "0" (TokenOk "t"))))
  = Some [EvPrintln done_marker; EvTokenRequest].
Proof. by vm_compute. Qed.

(** C1 (amended): for every worker-count argument that is zero or a
    negative integer the count is accepted, not rejected: no worker is
    ever started, no request goes to the subscribe endpoint, no result
    is delivered, and the failure log and the queue file, like every
    other file, stay as they were; the run goes on to the token call (a
    run that ends with the done marker has made it) and ends as it would
    with any other count, with the done marker whenever the command
    line, the queue file, the secrets and the token are in order. *)
Theorem nonpositive_worker_count w sched s arg0 arg1 n :
  args w = [arg0; arg1] →
  Atoi arg0 = Some n →
  (n ≤ 0)%Z →
  exec w sched (init w) = Some s →
  pool s = [] ∧
  files (sys s) = disk w ∧
  Forall startup_event (events (sys s)) ∧
  delivered s = 0 ∧
  exited s ≠ Some ExitUsage ∧ exited s ≠ Some ExitAtoi ∧
  exited s ≠ Some ExitPanic ∧
  (exited s = Some ExitDone → EvTokenRequest ∈ events (sys s)) ∧
  (starts w →
     (∀ r, exited s = Some r → r = ExitDone) ∧
     ∃ sched' s', exec w (sched ++ sched') (init w) = Some s' ∧
                  exited s' = Some ExitDone).
Proof.
  intros Hargs Hatoi Hn Hrun.
  pose proof (run_invariant _ _ _ Hrun) as Hinv.
  assert (pool s = []) as Hpool.
  { destruct (count_of_run _ _ _ _ _ Hinv Hargs Hatoi) as [Hpc|Hw];
      destruct Hinv.
    - by rewrite Hpc in inv_pool0.
    - destruct (pool s); [done|]. destruct (pc s); simpl in *; done || lia. }
  destruct (inv_quiet _ _ Hinv) as [Hfiles Hevs]; [by rewrite Hpool|].
  pose proof (inv_results _ _ Hinv) as Hres. rewrite Hpool in Hres.
  split_and!; try done.
  - simpl in Hres. lia.
  - intros Hex. pose proof (inv_exit _ _ Hinv) as He. rewrite Hex in He.
    destruct He as [_ He]. by eapply He.
  - intros Hex. pose proof (inv_exit _ _ Hinv) as He. rewrite Hex in He.
    destruct He as (_ & a0 & a1 & Ha & Hnone). simplify_eq. congruence.
  - intros Hex. pose proof (inv_exit _ _ Hinv) as He. by rewrite Hex in He.
  - intros Hex. pose proof (inv_exit _ _ Hinv) as He. rewrite Hex in He.
    destruct He as [He _]. pose proof (inv_token _ _ Hinv) as Ht.
    rewrite He in Ht. tauto.
  - intros Hstarts. split; [intros r; by apply (started_run_ends_done w)|].
    destruct (completes _ _ _ Hrun) as (sched' & s' & Hrun' & [r Hr]).
    exists sched', s'. split; [done|]. rewrite Hr. f_equal.
    eapply started_run_ends_done; [by eapply run_invariant | done..].
Qed.

Lemma nonpositive_worker_count_witness :
  Atoi "-3" = Some (-3)%Z ∧
  exec world_nobody sched_no_worker (init world_nobody)
  = Some (run_of world_nobody sched_no_worker) ∧
  pool (run_of world_nobody sched_no_worker) = [] ∧
  files (sys (run_of world_nobody sched_no_worker)) = disk world_nobody ∧
  Forall startup_event (events (sys (run_of world_nobody sched_no_worker))) ∧
  delivered (run_of world_nobody sched_no_worker) = 0 ∧
  exited (run_of world_nobody sched_no_worker) ≠ Some ExitUsage ∧
  exited (run_of world_nobody sched_no_worker) ≠ Some ExitAtoi ∧
  exited (run_of world_nobody sched_no_worker) ≠ Some ExitPanic ∧
  (exited (run_of world_nobody sched_no_worker) = Some ExitDone →
     EvTokenRequest ∈ events (sys (run_of world_nobody sched_no_worker))) ∧
  (starts world_nobody →
     (∀ r, exited (run_of world_nobody sched_no_worker) = Some r → r = ExitDone) ∧
     ∃ sched' s',
       exec world_nobody (sched_no_worker ++ sched') (init world_nobody) = Some s' ∧
       exited s' = Some ExitDone).
Proof.
  split; [reflexivity|].
  assert (exec world_nobody sched_no_worker (init world_nobody)
          = Some (run_of world_nobody sched_no_worker)) as Hrun
    by (vm_compute; reflexivity).
  split; [exact Hrun|].
  apply (nonpositive_worker_count world_nobody sched_no_worker
           (run_of world_nobody sched_no_worker) "-3" "q.txt" (-3)%Z).
  - reflexivity.
  - reflexivity.
  - lia.
  - exact Hrun.
Defined.

(** C2, as the spec states it, fails: when the token call fails the two
    workers asked for have already been started. *)
Lemma token_failure_after_workers_started :
  (exited <$> exec (world_of "2" TokenDecodeError) sched_token_failure
                (init (world_of "2" TokenDecodeError)))
  = Some (Some ExitToken) ∧
  (length ∘ pool <$> exec (world_of "2" TokenDecodeError) sched_token_failure
                       (init (world_of "2" TokenDecodeError)))
  = Some 2.
Proof. by vm_compute. Qed.

(** C2 (amended): the token is acquired before any work item is
    enqueued, but after the workers have been started: if the token call
    fails, the whole run aborts. It never reaches the dispatch: no work
    item is enqueued, no request goes to the subscribe endpoint, no file
    is written, and the workers started (as many as the count asks for,
    once the run has aborted on the token) have received nothing and
    wait on the empty job channel. Only [main] ever moves, it can take
    its next step as long as the process has not exited, and it exits
    within [bound w] steps, never with the done marker: every run can
    be continued to the exit, and when the command line, the queue file
    and the secrets are in order that exit is the one after the failed
    token call, with the error printed last. *)
Theorem token_failure_aborts_before_dispatch w sched s :
  token_fails (token_service w) →
  exec w sched (init w) = Some s →
  ¬ dispatching (pc s) ∧
  enqueued s = 0 ∧
  buf (work s) = [] ∧
  Forall (λ wk, wpc wk = WRange ∧ consumed wk = 0 ∧ emitted wk = 0) (pool s) ∧
  files (sys s) = disk w ∧
  Forall startup_event (events (sys s)) ∧
  exited s ≠ Some ExitDone ∧
  (exited s = Some ExitToken →
     Z.of_nat (length (pool s)) = Z.max 0 (workers s)) ∧
  Forall (λ l, l = LMain) sched ∧
  length sched ≤ bound w ∧
  (exited s = None → ∃ s', step w LMain s = Some s') ∧
  (∃ sched' s' r, exec w (sched ++ sched') (init w) = Some s' ∧
                  exited s' = Some r ∧ r ≠ ExitDone) ∧
  (reaches_token w →
     (∀ r, exited s = Some r → r = ExitToken) ∧
     ∃ sched' s' e,
       exec w (sched ++ sched') (init w) = Some s' ∧
       exited s' = Some ExitToken ∧
       head (events (sys s')) = Some (EvPrintln (MsgError e))).
Proof.
  intros Hfail Hrun. pose proof (run_invariant _ _ _ Hrun) as Hinv.
  destruct (token_failure_before_dispatch _ _ Hfail Hinv) as [Hnd Hgo].
  assert (match pc s with
          | MStart | MSpawn _ | MSecrets | MToken _ _ => True
          | _ => False
          end) as Hpc.
  { pose proof (inv_token _ _ Hinv) as Htok. destruct (pc s); simpl in *; tauto. }
  destruct (idle_pool _ _ Hinv Hnd Hgo) as (Hbuf & Hpool & Hfiles & Hevs).
  assert (∀ s', invariant w s' → exited s' ≠ Some ExitDone) as Hnever.
  { intros s' Hinv' Hex. pose proof (inv_exit _ _ Hinv') as He.
    rewrite Hex in He. destruct He as [He _].
    pose proof (inv_token _ _ Hinv') as Htok. rewrite He in Htok. tauto. }
  destruct (completes _ _ _ Hrun) as (sched' & s' & Hrun' & [r Hr]).
  pose proof (run_invariant _ _ _ Hrun') as Hinv'.
  split_and!; try done.
  - unfold enqueued. by destruct (pc s).
  - by apply Hnever.
  - intros Hex. pose proof (inv_exit _ _ Hinv) as He. rewrite Hex in He.
    destruct He as [(sp & cred & He) _].
    pose proof (inv_pool _ _ Hinv) as Hp. by rewrite He in Hp.
  - by eapply token_failure_only_main, Hrun; [|apply init_invariant].
  - by eapply run_bounded.
  - intros Hex. unfold step. rewrite Hex. by apply main_moves_before_dispatch.
  - exists sched', s', r. split_and!; try done.
    intros ->. by eapply Hnever.
  - intros Hreach. split; [intros r'; by apply (token_failure_ends_on_token w)|].
    pose proof (token_failure_ends_on_token _ _ _ Hinv' Hreach Hfail Hr) as ->.
    destruct (exec_exit_token w _ (init w) _ eq_refl Hrun' Hr) as [e He].
    by exists sched', s', e.
Qed.

Lemma token_failure_aborts_before_dispatch_witness :
  exec world_no_token sched_token_failure (init world_no_token)
  = Some (run_of world_no_token sched_token_failure) ∧
  exited (run_of world_no_token sched_token_failure) = Some ExitToken ∧
  head (events (sys (run_of world_no_token sched_token_failure)))
  = Some (EvPrintln (MsgError ErrDecode)) ∧
  ¬ dispatching (pc (run_of world_no_token sched_token_failure)) ∧
  enqueued (run_of world_no_token sched_token_failure) = 0 ∧
  buf (work (run_of world_no_token sched_token_failure)) = [] ∧
  Forall (λ wk, wpc wk = WRange ∧ consumed wk = 0 ∧ emitted wk = 0)
    (pool (run_of world_no_token sched_token_failure)) ∧
  files (sys (run_of world_no_token sched_token_failure)) = disk world_no_token ∧
  Forall startup_event (events (sys (run_of world_no_token sched_token_failure))) ∧
  exited (run_of world_no_token sched_token_failure) ≠ Some ExitDone ∧
  (exited (run_of world_no_token sched_token_failure) = Some ExitToken →
     Z.of_nat (length (pool (run_of world_no_token sched_token_failure)))
     = Z.max 0 (workers (run_of world_no_token sched_token_failure))) ∧
  Forall (λ l, l = LMain) sched_token_failure ∧
  length sched_token_failure ≤ bound world_no_token.
Proof.
  assert (exec world_no_token sched_token_failure (init world_no_token)
          = Some (run_of world_no_token sched_token_failure)) as Hrun
    by (vm_compute; reflexivity).
  split; [exact Hrun|]. split; [reflexivity|]. split; [reflexivity|].
  destruct (token_failure_aborts_before_dispatch world_no_token
              sched_token_failure (run_of world_no_token sched_token_failure))
    as (H1 & H2 & H3 & H4 & H5 & H6 & H7 & H8 & H9 & H10 & _).
  - exact I.
  - exact Hrun.
  - repeat (split; [assumption|]). assumption.
Defined.

(** C5: for every worker count of at least 1 and every identifier list,
    empty or not, each worker has at any moment emitted one result for
    each work item it has consumed, but for the one it is serving; when
    the run has ended with the done marker every worker has returned
    with as many results emitted as items consumed, every identifier
    has been dispatched and consumed, and the results delivered to the
    caller are as many as the work items dispatched; and a run that
    gets past its start-up can always be continued to that end. *)
Theorem results_match_work_items w sched s arg0 arg1 n :
  args w = [arg0; arg1] →
  Atoi arg0 = Some n →
  (1 ≤ n)%Z →
  exec w sched (init w) = Some s →
  Forall (λ wk, consumed wk = emitted wk + pending wk ∧ pending wk ≤ 1) (pool s) ∧
  (exited s = Some ExitDone →
     Forall (λ wk, wpc wk = WReturned ∧ emitted wk = consumed wk) (pool s) ∧
     enqueued s = length (assets s) ∧
     total consumed (pool s) = enqueued s ∧
     total emitted (pool s) = enqueued s ∧
     delivered s = enqueued s) ∧
  (starts w →
     ∃ sched' s', exec w (sched ++ sched') (init w) = Some s' ∧
                  exited s' = Some ExitDone).
Proof.
  intros Hargs Hatoi Hn Hrun.
  pose proof (run_invariant _ _ _ Hrun) as Hinv. split; [|split].
  - eapply Forall_impl; [exact (inv_worker _ _ Hinv)|].
    intros wk Hwk. split; [done|]. unfold pending. destruct (wpc wk); lia.
  - intros Hex.
    destruct (finished_run _ _ Hinv Hex) as (_ & _ & _ & Henq & Hdel & Hret).
    assert (workers s = n) as Hw.
    { destruct (count_of_run _ _ _ _ _ Hinv Hargs Hatoi) as [Hpc|]; [|done].
      pose proof (inv_exit _ _ Hinv) as He. rewrite Hex in He.
      destruct He as [He _]. congruence. }
    destruct (finished_work _ _ Hinv Hex) as [_ Hcons]; [lia|].
    pose proof (total_split _ (inv_worker _ _ Hinv)) as Hsplit.
    assert (total pending (pool s) = 0) as Hpend.
    { clear -Hret. unfold total. induction Hret as [|wk p [Hwk _] _ IH]; [done|].
      simpl. unfold pending at 1. rewrite Hwk. by rewrite IH. }
    split_and!; try lia.
    eapply Forall_impl; [exact Hret|]. by intros wk [? ->].
  - intros Hstarts.
    destruct (completes _ _ _ Hrun) as (sched' & s' & Hrun' & [r Hr]).
    exists sched', s'. split; [done|]. rewrite Hr. f_equal.
    eapply started_run_ends_done; [by eapply run_invariant | done..].
Qed.

Lemma results_match_work_items_witness :
  exec world_one sched_one_worker (init world_one)
  = Some (run_of world_one sched_one_worker) ∧
  exited (run_of world_one sched_one_worker) = Some ExitDone ∧
  delivered (run_of world_one sched_one_worker) = 2 ∧
  Forall (λ wk, consumed wk = emitted wk + pending wk ∧ pending wk ≤ 1)
    (pool (run_of world_one sched_one_worker)) ∧
  (exited (run_of world_one sched_one_worker) = Some ExitDone →
     Forall (λ wk, wpc wk = WReturned ∧ emitted wk = consumed wk)
       (pool (run_of world_one sched_one_worker)) ∧
     enqueued (run_of world_one sched_one_worker)
     = length (assets (run_of world_one sched_one_worker)) ∧
     total consumed (pool (run_of world_one sched_one_worker))
     = enqueued (run_of world_one sched_one_worker) ∧
     total emitted (pool (run_of world_one sched_one_worker))
     = enqueued (run_of world_one sched_one_worker) ∧
     delivered (run_of world_one sched_one_worker)
     = enqueued (run_of world_one sched_one_worker)) ∧
  (starts world_one →
     ∃ sched' s',
       exec world_one (sched_one_worker ++ sched') (init world_one) = Some s' ∧
       exited s' = Some ExitDone).
Proof.
  assert (exec world_one sched_one_worker (init world_one)
          = Some (run_of world_one sched_one_worker)) as Hrun
    by (vm_compute; reflexivity).
  split; [exact Hrun|]. split; [reflexivity|]. split; [reflexivity|].
  apply (results_match_work_items world_one sched_one_worker
           (run_of world_one sched_one_worker) "1" "q.txt" 1%Z).
  - reflexivity.
  - reflexivity.
  - lia.
  - exact Hrun.
Defined.

(** C8: failures of work items never abort the run. Once the command
    line, the queue file, the secrets and the token are in order, then
    whatever the surroundings answer each request (encoding, transport,
    timeout, status, queue-mutation or decoding failures, in any number)
    and however the goroutines are scheduled: a run has at most
    [bound w] steps; while the process has not exited some goroutine can
    move; the process exits only by [main] returning after the done
    marker, with the results channel closed and drained and every
    result a worker sent printed; and every run can be continued to that
    end. *)
Theorem per_item_errors_never_abort w sched s :
  starts w →
  exec w sched (init w) = Some s →
  length sched ≤ bound w ∧
  (exited s = None → ∃ l s', step w l s = Some s') ∧
  (∀ r, exited s = Some r →
     r = ExitDone ∧
     closed (results s) = true ∧ buf (results s) = [] ∧
     delivered s = total emitted (pool s) ∧
     head (events (sys s)) = Some (EvPrintln done_marker)) ∧
  (∃ sched' s', exec w (sched ++ sched') (init w) = Some s' ∧
                exited s' = Some ExitDone).
Proof.
  intros Hstarts Hrun. pose proof (run_invariant _ _ _ Hrun) as Hinv.
  split_and!.
  - by eapply run_bounded.
  - by apply progress.
  - intros r Hex.
    pose proof (started_run_ends_done _ _ _ Hinv Hstarts Hex) as ->.
    by destruct (finished_run _ _ Hinv Hex) as (? & ? & ? & _ & ? & _).
  - destruct (completes _ _ _ Hrun) as (sched' & s' & Hrun' & [r Hr]).
    exists sched', s'. split; [done|]. rewrite Hr. f_equal.
    eapply started_run_ends_done; [by eapply run_invariant | done..].
Qed.

Lemma per_item_errors_never_abort_witness :
  exec world_one sched_one_worker (init world_one)
  = Some (run_of world_one sched_one_worker) ∧
  events (sys (run_of world_one sched_one_worker))
  = [EvPrintln done_marker;
     EvPrintln (MsgValue None);
     EvLog (ErrUnexpectedResponse "500 Internal Server Error");
     EvPrintln (MsgValue (Some []));
     EvAppend "./failed.txt" "B";
     EvSubscribe "http://h/services/obdstack/v1/assets/B/subscribe" "t";
     EvDecodeBody;
     EvReplace "q.txt";
     EvSubscribe "http://h/services/obdstack/v1/assets/A/subscribe" "t";
     EvTokenRequest] ∧
  length sched_one_worker ≤ bound world_one ∧
  (exited (run_of world_one sched_one_worker) = None →
     ∃ l s', step world_one l (run_of world_one sched_one_worker) = Some s') ∧
  (∀ r, exited (run_of world_one sched_one_worker) = Some r →
     r = ExitDone ∧
     closed (results (run_of world_one sched_one_worker)) = true ∧
     buf (results (run_of world_one sched_one_worker)) = [] ∧
     delivered (run_of world_one sched_one_worker)
     = total emitted (pool (run_of world_one sched_one_worker)) ∧
     head (events (sys (run_of world_one sched_one_worker)))
     = Some (EvPrintln done_marker)) ∧
  (∃ sched' s',
     exec world_one (sched_one_worker ++ sched') (init world_one) = Some s' ∧
     exited s' = Some ExitDone).
Proof.
  assert (exec world_one sched_one_worker (init world_one)
          = Some (run_of world_one sched_one_worker)) as Hrun
    by (vm_compute; reflexivity).
  split; [exact Hrun|]. split; [reflexivity|].
  apply (per_item_errors_never_abort world_one sched_one_worker
           (run_of world_one sched_one_worker)).
  - exists "1", "q.txt", ["A"; "B"], 1%Z.
    eexists. split_and!; try reflexivity. intros [].
  - exact Hrun.
Defined.
(** ** Reading and appending *)



(** X2: [readFile] does not need the last line to end in a newline: when
    no read fails, a file whose last, non-empty line is unterminated is
    read as the same file with that line terminated, lines and error
    alike; that is every line and no error when every line is shorter
    than 64 KiB. *)
Theorem readFile_unterminated_last_line path o o' lines last :
  files o !! path = Some (render lines +:+ last) →
  files o' !! path = Some (render (lines ++ [last])) →
  Forall (λ l, noLF l = true) lines →
  noLF last = true →
  last ≠ "" →
  readFile None path o = readFile None path o' ∧
  (Forall fits lines → fits last →
     readFile None path o = (dropCR <$> (lines ++ [last]), None)).
Proof.
  intros Hdata Hdata' Hlf Hlast Hne.
  assert (readFile None path o = readFile None path o') as Hsame.
  { unfold readFile, scanFile. rewrite Hdata, Hdata'.
    by rewrite scan_render_last. }
  split; [done|]. intros Hfit Hfitlast. rewrite Hsame.
  apply readFile_render; [done|]. apply Forall_noLF_fits.
  - apply Forall_app. split; [done | by constructor].
  - apply Forall_app. split; [done | by constructor].
Qed.

Lemma readFile_unterminated_last_line_witness :
  readFile None "q.txt" queue_ABC_open
  = readFile None "q.txt"
      {| files := {[ "q.txt" := render (["A"; "B" +:+ String CR ""] ++ ["C"]) ]};
         events := [] |} ∧
  readFile None "q.txt" queue_ABC_open
  = (dropCR <$> (["A"; "B" +:+ String CR ""] ++ ["C"]), None).
Proof.
  destruct (readFile_unterminated_last_line "q.txt" queue_ABC_open
              {| files := {[ "q.txt" := render (["A"; "B" +:+ String CR ""] ++ ["C"]) ]};
                 events := [] |}
              ["A"; "B" +:+ String CR ""] "C") as [Hsame Hall].
  - reflexivity.
  - reflexivity.
  - repeat constructor.
  - reflexivity.
  - discriminate.
  - split; [exact Hsame|]. apply Hall.
    + repeat constructor.
    + reflexivity.
Defined.

(** X3: whatever the file holds and wherever the scanner may fail, no
    line [readFile] returns contains a newline. *)
Theorem readFile_lines_hold_no_newline read_error path o :
  Forall (λ l, noLF l = true) (readFile read_error path o).1.
Proof.
  unfold readFile. destruct (files o !! path) as [data|]; [|constructor].
  apply scanFile_noLF.
Qed.



(** ** [removeLine] beyond the line it drops *)

(** X5: a [removeLine] that returns an error has not touched the queue
    file, nor any other file but the temporary one it may have created,
    and has replaced nothing. When the queue file cannot be opened,
    because it does not exist or because [os.Open] fails, the error is
    that of [os.Open] and nothing at all has changed, the temporary file
    included; and no other failure returns that error. *)
Theorem removeLine_error_keeps_queue io path content o o' e :
  removeLine io path content o = (o', Some e) →
  files o' !! path = files o !! path ∧
  (∀ q, q ≠ path +:+ "~tmp" → files o' !! q = files o !! q) ∧
  events o' = events o ∧
  (files o !! path = None ∨ open_fails io = true ↔ e = ErrOpen path) ∧
  (e = ErrOpen path → o' = o).
Proof.
  intros H.
  destruct (removeLine_failure _ _ _ _ _ _ H) as (Hev & Hfile & _).
  split_and!; try done.
  - intros q Hq. by eapply removeLine_error_frame.
  - revert H. unfold removeLine.
    destruct (files o !! path) as [data|] eqn:Hdata;
      [|intros; simplify_eq; naive_solver].
    destruct (open_fails io); [intros; simplify_eq; naive_solver|].
    destruct (create_fails io); [intros; simplify_eq; naive_solver|].
    unfold scanFile. destruct (scan "" _) as [tokens []];
      destruct (scan_fails io), (rename_fails io);
      intros; simplify_eq; naive_solver.
  - intros ->. by eapply removeLine_open_error.
Qed.

Lemma removeLine_error_keeps_queue_witness :
  (removeLine open_fault "q.txt" "A" queue_ABA).2 = Some (ErrOpen "q.txt") ∧
  (removeLine open_fault "q.txt" "A" queue_ABA).1 = queue_ABA ∧
  (removeLine rename_fault "q.txt" "A" queue_ABA).2
  = Some (ErrRename "q.txt~tmp" "q.txt") ∧
  files (removeLine rename_fault "q.txt" "A" queue_ABA).1 !! "q.txt"
  = files queue_ABA !! "q.txt".
Proof.
  destruct (removeLine_error_keeps_queue open_fault "q.txt" "A" queue_ABA
              (removeLine open_fault "q.txt" "A" queue_ABA).1 (ErrOpen "q.txt"))
    as (_ & _ & _ & _ & Hsame); [reflexivity|].
  destruct (removeLine_error_keeps_queue rename_fault "q.txt" "A" queue_ABA
              (removeLine rename_fault "q.txt" "A" queue_ABA).1
              (ErrRename "q.txt~tmp" "q.txt"))
    as (Hqueue & _); [vm_compute; reflexivity|].
  split; [reflexivity|]. split; [exact (Hsame eq_refl)|].
  split; [reflexivity | exact Hqueue].
Defined.

(** X6: a [removeLine] that succeeds leaves no temporary file behind (a
    file of that name that existed before is gone too), touches no file
    but the queue file and the temporary one, and performs exactly one
    replacement. *)
Theorem removeLine_success_touches_two_files io path content o o' :
  removeLine io path content o = (o', None) →
  files o' !! (path +:+ "~tmp") = None ∧
  (∀ q, q ≠ path → q ≠ path +:+ "~tmp" → files o' !! q = files o !! q) ∧
  events o' = EvReplace path :: events o.
Proof.
  intros (data & Hdata & Hfiles & Hev)%removeLine_success. simpl in Hfiles.
  rewrite Hfiles. split_and!; [|intros q Hq Hq'|done].
  - by rewrite lookup_delete_eq.
  - by rewrite lookup_delete_ne, !lookup_insert_ne.
Qed.

Lemma removeLine_success_touches_two_files_witness :
  files (removeLine no_faults "q.txt" "A" queue_ABA).1 !! ("q.txt" +:+ "~tmp")
  = None ∧
  (∀ q, q ≠ "q.txt" → q ≠ "q.txt" +:+ "~tmp" →
     files (removeLine no_faults "q.txt" "A" queue_ABA).1 !! q
     = files queue_ABA !! q) ∧
  events (removeLine no_faults "q.txt" "A" queue_ABA).1
  = EvReplace "q.txt" :: events queue_ABA.
Proof.
  apply (removeLine_success_touches_two_files no_faults "q.txt" "A" queue_ABA).
  vm_compute. reflexivity.
Defined.

(** X7: removing an identifier is idempotent on a queue file none of
    whose lines ends in a carriage return: a second successful
    [removeLine] of the same identifier leaves the queue file as the
    first one wrote it. *)
Theorem removeLine_twice io io' path content o o1 o2 data :
  files o !! path = Some data →
  Forall (λ l, dropCR l = l) (scanLines data) →
  removeLine io path content o = (o1, None) →
  removeLine io' path content o1 = (o2, None) →
  files o2 !! path = files o1 !! path.
Proof.
  intros Hdata Hcr H1 H2.
  pose proof (removeLine_success_lookup _ _ _ _ _ _ Hdata H1) as Hone.
  rewrite (removeLine_success_lookup _ _ _ _ _ _ Hone H2), Hone.
  rewrite scanLines_render_CR
    by (apply Forall_filter_keep, scanLines_noLF).
  rewrite fmap_dropCR_id by (by apply Forall_filter_keep).
  by rewrite filter_idem.
Qed.

Lemma removeLine_twice_witness :
  files (removeLine no_faults "q.txt" "A"
           (removeLine no_faults "q.txt" "A" queue_ABA).1).1 !! "q.txt"
  = files (removeLine no_faults "q.txt" "A" queue_ABA).1 !! "q.txt".
Proof.
  apply (removeLine_twice no_faults no_faults "q.txt" "A" queue_ABA _ _
           ("A" +:+ newline +:+ "B" +:+ newline +:+ "A" +:+ newline)).
  - reflexivity.
  - vm_compute. repeat constructor.
  - vm_compute. reflexivity.
  - vm_compute. reflexivity.
Defined.

(** X8: on a queue file none of whose lines ends in a carriage return,
    two identifiers can be removed in either order: the queue file ends
    up the same, holding the lines that are neither of them. *)
Theorem removeLine_order_irrelevant io1 io2 io3 io4 path a b o oa oab ob oba data :
  files o !! path = Some data →
  Forall (λ l, dropCR l = l) (scanLines data) →
  removeLine io1 path a o = (oa, None) →
  removeLine io2 path b oa = (oab, None) →
  removeLine io3 path b o = (ob, None) →
  removeLine io4 path a ob = (oba, None) →
  files oab !! path = files oba !! path ∧
  files oab !! path
  = Some (render (filter (λ line, line ≠ a ∧ line ≠ b) (scanLines data))).
Proof.
  intros Hdata Hcr Ha Hab Hb Hba.
  pose proof (removeLine_success_lookup _ _ _ _ _ _ Hdata Ha) as Hoa.
  pose proof (removeLine_success_lookup _ _ _ _ _ _ Hdata Hb) as Hob.
  rewrite (removeLine_success_lookup _ _ _ _ _ _ Hoa Hab).
  rewrite (removeLine_success_lookup _ _ _ _ _ _ Hob Hba).
  rewrite !scanLines_render_CR
    by (apply Forall_filter_keep, scanLines_noLF).
  rewrite !fmap_dropCR_id by (by apply Forall_filter_keep).
  split; [by rewrite filter_comm|].
  rewrite list_filter_filter. do 2 f_equal.
  apply list_filter_iff. intros l. tauto.
Qed.

Lemma removeLine_order_irrelevant_witness :
  files (removeLine no_faults "q.txt" "B"
           (removeLine no_faults "q.txt" "A" queue_ABA).1).1 !! "q.txt"
  = files (removeLine no_faults "q.txt" "A"
             (removeLine no_faults "q.txt" "B" queue_ABA).1).1 !! "q.txt" ∧
  files (removeLine no_faults "q.txt" "B"
           (removeLine no_faults "q.txt" "A" queue_ABA).1).1 !! "q.txt"
  = Some (render (filter (λ line, line ≠ "A" ∧ line ≠ "B")
                    (scanLines ("A" +:+ newline +:+ "B" +:+ newline +:+ "A" +:+ newline)))).
Proof.
  apply (removeLine_order_irrelevant no_faults no_faults no_faults no_faults
           "q.txt" "A" "B" queue_ABA
           (removeLine no_faults "q.txt" "A" queue_ABA).1 _
           (removeLine no_faults "q.txt" "B" queue_ABA).1 _
           ("A" +:+ newline +:+ "B" +:+ newline +:+ "A" +:+ newline)).
  - reflexivity.
  - vm_compute. repeat constructor.
  - vm_compute. reflexivity.
  - vm_compute. reflexivity.
  - vm_compute. reflexivity.
  - vm_compute. reflexivity.
Defined.

(** X9: a later run resumes from what is left: after a successful
    [removeLine], [readFile] of the queue file returns the lines that
    differ from the removed identifier, in order, each less one trailing
    carriage return; exactly those lines when none ends in a carriage
    return. *)
Theorem readFile_after_removeLine io path content o o' data :
  files o !! path = Some data →
  removeLine io path content o = (o', None) →
  readFile None path o'
  = (dropCR <$> filter (λ line, line ≠ content) (scanLines data), None) ∧
  (Forall (λ l, dropCR l = l) (scanLines data) →
   readFile None path o'
   = (filter (λ line, line ≠ content) (scanLines data), None)).
Proof.
  intros Hdata Hrun.
  destruct (removeLine_success_fits _ _ _ _ _ _ Hdata Hrun) as [_ Hfit].
  rewrite (readFile_render _ _
             (filter (λ line, line ≠ content) (scanLines data))).
  - split; [done|]. intros Hcr.
    by rewrite fmap_dropCR_id by (by apply Forall_filter_keep).
  - by eapply removeLine_success_lookup.
  - apply Forall_filter_keep, Forall_noLF_fits; [apply scanLines_noLF | done].
Qed.

Lemma readFile_after_removeLine_witness :
  readFile None "q.txt" (removeLine no_faults "q.txt" "A" queue_ABA).1
  = (dropCR <$> filter (λ line, line ≠ "A")
       (scanLines ("A" +:+ newline +:+ "B" +:+ newline +:+ "A" +:+ newline)), None) ∧
  (Forall (λ l, dropCR l = l)
     (scanLines ("A" +:+ newline +:+ "B" +:+ newline +:+ "A" +:+ newline)) →
   readFile None "q.txt" (removeLine no_faults "q.txt" "A" queue_ABA).1
   = (filter (λ line, line ≠ "A")
        (scanLines ("A" +:+ newline +:+ "B" +:+ newline +:+ "A" +:+ newline)), None)).
Proof.
  apply (readFile_after_removeLine no_faults "q.txt" "A" queue_ABA).
  - reflexivity.
  - vm_compute. reflexivity.
Defined.

(** ** [doRequest] beyond its failures *)

(** X10: [doRequest] returns a value only when nothing failed: the
    payload was encoded, the request built, the answer had status 200,
    the queue file was replaced and the body decoded to that value. Its
    events are then the request, the replacement and the decoding, in
    that order; the queue file holds the lines that differ from the
    identifier; nothing is appended to the failure log. *)
Theorem doRequest_success env params o o' result :
  doRequest env params o = (o', inr result) →
  marshal_fails env = false ∧ newrequest_fails env = false ∧
  (∃ res, client_do env = DoResponse res ∧ StatusCode res = 200%Z ∧
          BodyJSON res = Some result) ∧
  events o' = EvDecodeBody :: EvReplace (Path params)
                :: EvSubscribe (Url params) (Token params) :: events o ∧
  (∃ data, files o !! Path params = Some data ∧
     files o' !! Path params
     = Some (render (filter (λ line, line ≠ Imei params) (scanLines data)))) ∧
  (Path params ≠ failedLog → files o' !! failedLog = files o !! failedLog).
Proof.
  unfold doRequest. intros Hrun.
  destruct (marshal_fails env); [done|].
  destruct (newrequest_fails env); [done|].
  destruct (client_do env) as [timeout|res]; [done|].
  destruct (decide (StatusCode res ≠ 200%Z)) as [|Hstatus]; [done|].
  destruct (removeLine _ _ _ _) as [o1 [e1|]] eqn:Hrm; [done|].
  destruct (BodyJSON res) as [v|] eqn:Hbody; [|done]. simplify_eq.
  destruct (removeLine_success _ _ _ _ _ Hrm) as (data & Hdata & _ & Hev).
  pose proof (removeLine_success_lookup _ _ _ _ _ _ Hdata Hrm) as Hnew.
  pose proof (λ q, removeLine_success_frame _ _ _ _ _ q Hrm) as Hframe.
  split_and!; try done.
  - exists res. split_and!; try done. by destruct (decide (StatusCode res = 200%Z)); [|exfalso; apply Hstatus].
  - simpl. by rewrite Hev.
  - by exists data.
  - intros Hne. simpl. rewrite Hframe; [done | done |].
    intros H. by apply (tmpName_ne_failedLog (Path params)).
Qed.

Lemma doRequest_success_witness :
  (doRequest ok_json params_A queue_ABA).2 = inr [] ∧
  marshal_fails ok_json = false ∧ newrequest_fails ok_json = false ∧
  (∃ res, client_do ok_json = DoResponse res ∧ StatusCode res = 200%Z ∧
          BodyJSON res = Some []) ∧
  events (doRequest ok_json params_A queue_ABA).1
  = EvDecodeBody :: EvReplace (Path params_A)
      :: EvSubscribe (Url params_A) (Token params_A) :: events queue_ABA ∧
  (∃ data, files queue_ABA !! Path params_A = Some data ∧
     files (doRequest ok_json params_A queue_ABA).1 !! Path params_A
     = Some (render (filter (λ line, line ≠ Imei params_A) (scanLines data)))) ∧
  (Path params_A ≠ failedLog →
   files (doRequest ok_json params_A queue_ABA).1 !! failedLog
   = files queue_ABA !! failedLog).
Proof.
  split; [reflexivity|].
  apply (doRequest_success ok_json params_A queue_ABA).
  vm_compute. reflexivity.
Defined.

(** X11: [doRequest] makes one request attempt and never a second: the
    events of a call hold no request when the encoding of the payload or
    the creation of the request fails, and exactly one otherwise, to the
    URL of the work item with its token. *)
Theorem doRequest_one_attempt env params o :
  ∃ evs,
    events (doRequest env params o).1 = evs ++ events o ∧
    occurrences is_subscribe evs
    = (if marshal_fails env || newrequest_fails env then 0 else 1) ∧
    (∀ url token, EvSubscribe url token ∈ evs →
       url = Url params ∧ token = Token params).
Proof.
  unfold doRequest.
  destruct (marshal_fails env).
  { exists []. split_and!; try done. by intros ?? ?%elem_of_nil. }
  destruct (newrequest_fails env).
  { exists []. split_and!; try done. by intros ?? ?%elem_of_nil. }
  assert (∃ evs,
            events (appendToFile (append env) failedLog (Imei params)
                      (emit (EvSubscribe (Url params) (Token params)) o))
            = evs ++ events o ∧
            occurrences is_subscribe evs = 1 ∧
            (∀ url token, EvSubscribe url token ∈ evs →
               url = Url params ∧ token = Token params)) as Hlogged.
  { unfold appendToFile. destruct (append env); simpl;
      [exists [EvAppend failedLog (Imei params);
               EvSubscribe (Url params) (Token params)]
      |exists [EvLog ErrInvalid; EvLog (ErrOpen failedLog);
               EvSubscribe (Url params) (Token params)]
      |exists [EvLog (ErrWrite failedLog);
               EvSubscribe (Url params) (Token params)]];
      (split; [done|]; split; [done|]; intros ??;
       rewrite !elem_of_cons, elem_of_nil; naive_solver). }
  destruct (client_do env) as [[]|res]; simpl.
  - done.
  - exists [EvSubscribe (Url params) (Token params)].
    split_and!; try done. intros ??. rewrite !elem_of_cons, elem_of_nil. naive_solver.
  - destruct (decide (StatusCode res ≠ 200%Z)); simpl; [done|].
    destruct (removeLine _ _ _ _) as [o1 [e1|]] eqn:Hrm.
    + destruct (removeLine_failure _ _ _ _ _ _ Hrm) as (Hev & _).
      exists [EvSubscribe (Url params) (Token params)]. simpl. rewrite Hev.
      split_and!; try done. intros ??. rewrite !elem_of_cons, elem_of_nil. naive_solver.
    + destruct (removeLine_success _ _ _ _ _ Hrm) as (_ & _ & _ & Hev).
      exists [EvDecodeBody; EvReplace (Path params);
              EvSubscribe (Url params) (Token params)].
      destruct (BodyJSON res); simpl; rewrite Hev;
        (split_and!; try done; intros ??; rewrite !elem_of_cons, elem_of_nil;
         naive_solver).
Qed.

(** X12: whatever happens to a work item, [doRequest] touches no file
    but the failure log, the queue file of the work item and that queue
    file's temporary copy. *)
Theorem doRequest_touches_three_files env params o q :
  q ≠ failedLog →
  q ≠ Path params →
  q ≠ Path params +:+ "~tmp" →
  files (doRequest env params o).1 !! q = files o !! q.
Proof.
  intros Hlog Hpath Htmp. unfold doRequest.
  destruct (marshal_fails env); [done|].
  destruct (newrequest_fails env); [done|].
  destruct (client_do env) as [[]|res]; simpl;
    [by rewrite appendToFile_frame | done |].
  destruct (decide (StatusCode res ≠ 200%Z)); simpl;
    [by rewrite appendToFile_frame|].
  destruct (removeLine _ _ _ _) as [o1 [e1|]] eqn:Hrm.
  - simpl. by rewrite (removeLine_error_frame _ _ _ _ _ _ _ Hrm).
  - destruct (BodyJSON res); simpl;
      by rewrite (removeLine_success_frame _ _ _ _ _ _ Hrm).
Qed.

Lemma doRequest_touches_three_files_witness :
  files (doRequest server_error params_A queue_ABA).1 !! "local.env"
  = files queue_ABA !! "local.env".
Proof.
  apply (doRequest_touches_three_files server_error params_A queue_ABA "local.env");
    discriminate.
Defined.

(** ** Provenance holds along every run *)

Lemma occurrences_app (kind : event → bool) (evs more : list event) :
  occurrences kind (evs ++ more) = occurrences kind evs + occurrences kind more.
Proof. induction evs as [|e evs IH]; simpl; [done | rewrite IH; lia]. Qed.

Lemma startup_sanctioned w queue ids e :
  startup_event e → sanctioned w queue ids e.
Proof. by destruct e. Qed.

Lemma startup_occurrences (evs : list event) :
  Forall startup_event evs → occurrences is_subscribe evs = 0.
Proof. induction 1 as [|e evs He _ IH]; [done|]. simpl. by destruct e. Qed.

Lemma getToken_events svc cred o o' r :
  getToken svc cred o = (o', r) →
  files o' = files o ∧
  (∀ tk, r = inr tk → svc = TokenOk tk) ∧
  ∃ evs, events o' = evs ++ events o ∧
         occurrences is_token_request evs ≤ 1 ∧
         occurrences is_subscribe evs = 0 ∧
         Forall startup_event evs.
Proof.
  unfold getToken. intros H. destruct svc; simplify_eq/=.
  - split_and!; [done..|]. exists [EvPrintln (MsgError ErrMarshal)].
    split_and!; simpl; try done; try lia. by repeat constructor.
  - split_and!; [done..|]. exists []. split_and!; simpl; try done; lia.
  - split_and!; [done..|].
    exists [EvPrintln (MsgError (ErrClientDo timeout)); EvTokenRequest].
    split_and!; simpl; try done; try lia. by repeat constructor.
  - split_and!; [done..|]. exists [EvTokenRequest].
    split_and!; simpl; try done; try lia. by repeat constructor.
  - split_and!; [done| by intros ? [= ->] |]. exists [EvTokenRequest].
    split_and!; simpl; try done; try lia. by repeat constructor.
Qed.

Ltac each_event :=
  repeat (apply Forall_cons; split; [eauto 8|]); by apply Forall_nil.

(** The events one call of [doRequest] adds. *)
Lemma doRequest_events env params o :
  ∃ evs,
    events (doRequest env params o).1 = evs ++ events o ∧
    occurrences is_subscribe evs ≤ 1 ∧
    occurrences is_token_request evs = 0 ∧
    Forall (λ e, e = EvSubscribe (Url params) (Token params) ∨
                 e = EvAppend failedLog (Imei params) ∨
                 e = EvReplace (Path params) ∨ e = EvDecodeBody ∨
                 ∃ err, e = EvLog err) evs.
Proof.
  unfold doRequest.
  destruct (marshal_fails env).
  { exists []. split_and!; simpl; try done; lia. }
  destruct (newrequest_fails env).
  { exists []. split_and!; simpl; try done; lia. }
  assert (∃ evs,
            events (appendToFile (append env) failedLog (Imei params)
                      (emit (EvSubscribe (Url params) (Token params)) o))
            = evs ++ events o ∧
            occurrences is_subscribe evs ≤ 1 ∧
            occurrences is_token_request evs = 0 ∧
            Forall (λ e, e = EvSubscribe (Url params) (Token params) ∨
                         e = EvAppend failedLog (Imei params) ∨
                         e = EvReplace (Path params) ∨ e = EvDecodeBody ∨
                         ∃ err, e = EvLog err) evs) as Hlogged.
  { unfold appendToFile. destruct (append env); simpl;
      [exists [EvAppend failedLog (Imei params);
               EvSubscribe (Url params) (Token params)]
      |exists [EvLog ErrInvalid; EvLog (ErrOpen failedLog);
               EvSubscribe (Url params) (Token params)]
      |exists [EvLog (ErrWrite failedLog);
               EvSubscribe (Url params) (Token params)]];
      (split_and!; simpl; try done; try lia; each_event). }
  destruct (client_do env) as [[]|res]; simpl.
  - done.
  - exists [EvSubscribe (Url params) (Token params)].
    split_and!; simpl; try done; try lia. each_event.
  - destruct (decide (StatusCode res ≠ 200%Z)); simpl; [done|].
    destruct (removeLine _ _ _ _) as [o1 [e1|]] eqn:Hrm.
    + destruct (removeLine_failure _ _ _ _ _ _ Hrm) as (Hev & _).
      exists [EvSubscribe (Url params) (Token params)]. simpl. rewrite Hev.
      split_and!; simpl; try done; try lia. each_event.
    + destruct (removeLine_success _ _ _ _ _ Hrm) as (_ & _ & _ & Hev).
      exists [EvDecodeBody; EvReplace (Path params);
              EvSubscribe (Url params) (Token params)].
      destruct (BodyJSON res); simpl; rewrite Hev;
        (split_and!; simpl; try done; try lia; each_event).
Qed.

Lemma doRequest_frame env params o q :
  q ≠ failedLog → q ≠ Path params → q ≠ Path params +:+ "~tmp" →
  files (doRequest env params o).1 !! q = files o !! q.
Proof.
  intros Hlog Hpath Htmp. unfold doRequest.
  destruct (marshal_fails env); [done|].
  destruct (newrequest_fails env); [done|].
  destruct (client_do env) as [[]|res]; simpl;
    [by rewrite appendToFile_frame | done |].
  destruct (decide (StatusCode res ≠ 200%Z)); simpl;
    [by rewrite appendToFile_frame|].
  destruct (removeLine _ _ _ _) as [o1 [e1|]] eqn:Hrm.
  - simpl. by rewrite (removeLine_error_frame _ _ _ _ _ _ _ Hrm).
  - destruct (BodyJSON res); simpl;
      by rewrite (removeLine_success_frame _ _ _ _ _ _ Hrm).
Qed.

Lemma drop_next {A} (l : list A) (n : nat) (x : A) (t : list A) :
  drop n l = x :: t → drop (S n) l = t ∧ x ∈ l.
Proof.
  intros H. assert (l !! n = Some x) as Hx.
  { pose proof (lookup_drop l n 0) as Hl. rewrite H in Hl. simpl in Hl.
    by rewrite Nat.add_0_r in Hl. }
  split; [|by eapply list_elem_of_lookup_2].
  rewrite (drop_S _ _ _ Hx) in H. by simplify_eq.
Qed.

Lemma init_provenance (w : world) : provenance w (init w).
Proof. constructor; simpl; try done. lia. Qed.

Ltac open_provenance :=
  constructor; unfold remaining in *; simpl in *; try done.

(** Provenance looks only at [main]'s place and locals, the job channel,
    the pool and the surroundings. *)
Lemma provenance_same w s s' :
  pc s' = pc s → assets s' = assets s → source s' = source s →
  work s' = work s → pool s' = pool s → sys s' = sys s →
  (exited s' = None → exited s = None) →
  provenance w s → provenance w s'.
Proof.
  intros Hpc Ha Hs Hw Hp Hsys Hex [].
  constructor; unfold remaining in *; rewrite ?Hpc, ?Ha, ?Hs, ?Hw, ?Hp, ?Hsys;
    try done.
  destruct prov_token0 as [? Hm]. split; [done|].
  destruct (pc s); try done. auto.
Qed.

Lemma closer_step_provenance w s s' :
  provenance w s → closer_step s = Some s' → provenance w s'.
Proof.
  intros Hprov. unfold closer_step.
  destruct (closer s) as [[]|]; [| |done..].
  - case_decide; [|done]. intros [= <-]. by apply (provenance_same w s).
  - unfold close. destruct (closed (results s)); intros [= <-];
      by apply (provenance_same w s).
Qed.

Lemma issued_path w queue ids p :
  issued w queue ids p → Path p = queue ∧ Imei p ∈ ids.
Proof. intros (sp & cred & tk & _ & _ & Hin & Hp). by rewrite Hp. Qed.

Lemma doWork_step_provenance w i env s s' :
  provenance w s → doWork_step i env s = Some s' → provenance w s'.
Proof.
  intros Hprov. unfold doWork_step.
  destruct (pool s !! i) as [wk|] eqn:Hi; [|done].
  pose proof (Forall_lookup_1 _ _ _ _ (prov_held _ _ Hprov) Hi) as Hheld.
  pose proof (total_lookup requesting _ _ _ Hi) as Hreq.
  unfold requesting in Hreq at 1. simpl in Hheld.
  destruct (wpc wk) eqn:Hpc; [| | |done].
  - unfold recv. destruct (buf (work s)) as [|params rest] eqn:Hbuf.
    + destruct (closed (work s)); [|done].
      case_decide; intros [= <-]; [by apply (provenance_same w s)|].
      pose proof (total_insert consumed _ _ _ {| wpc := WReturned; consumed := consumed wk; emitted := emitted wk |} Hi) as Tc.
      pose proof (total_insert requesting _ _ _ {| wpc := WReturned; consumed := consumed wk; emitted := emitted wk |} Hi) as Tr.
      unfold requesting in Tr at 2. rewrite Hpc in Tr. simpl in Tc, Tr.
      assert (total consumed (<[i:={| wpc := WReturned; consumed := consumed wk; emitted := emitted wk |}]> (pool s)) = total consumed (pool s)) as Ec by lia.
      destruct Hprov. open_provenance; rewrite ?Ec; try done.
      * by apply Forall_insert.
      * lia.
    + intros [= <-].
      pose proof (total_insert consumed _ _ _ {| wpc := WRequest params; consumed := S (consumed wk); emitted := emitted wk |} Hi) as Tc.
      pose proof (total_insert requesting _ _ _ {| wpc := WRequest params; consumed := S (consumed wk); emitted := emitted wk |} Hi) as Tr.
      unfold requesting in Tr at 2. rewrite Hpc in Tr. simpl in Tc, Tr.
      assert (total consumed (<[i:={| wpc := WRequest params; consumed := S (consumed wk); emitted := emitted wk |}]> (pool s)) = S (total consumed (pool s))) as Ec by lia.
      destruct Hprov. rewrite Hbuf in *.
      apply Forall_cons in prov_queued0 as [Hp Hrest].
      open_provenance; rewrite ?Ec; try done.
      * eapply drop_next. exact prov_order0.
      * by apply Forall_insert.
      * lia.
  - destruct (issued_path _ _ _ _ Hheld) as [Hpath Hin].
    destruct (doRequest_events env params (sys s)) as (evs & Hev & Hocc & Htok & Hall).
    pose proof (λ q, doRequest_frame env params (sys s) q) as Hframe.
    destruct (doRequest env params (sys s)) as [o r] eqn:Hreq'. simpl in Hev, Hframe.
    intros [= <-].
    pose proof (total_insert consumed _ _ _ {| wpc := WSend (toResult r); consumed := consumed wk; emitted := emitted wk |} Hi) as Tc.
    pose proof (total_insert requesting _ _ _ {| wpc := WSend (toResult r); consumed := consumed wk; emitted := emitted wk |} Hi) as Tr.
    unfold requesting in Tr at 2. rewrite Hpc in Tr. simpl in Tc, Tr.
    destruct Hprov. open_provenance; rewrite ?Hev, ?occurrences_app; try done.
    * replace (total consumed _) with (total consumed (pool s)) by lia. done.
    * by apply Forall_insert.
    * apply Forall_app. split; [|done].
      eapply Forall_impl; [exact Hall|]. intros e [-> | [-> | [-> | [-> | [err ->]]]]]; simpl; eauto.
    * intros q ???. rewrite Hframe by congruence. auto.
    * lia.
    * destruct prov_token0 as [? Hm]. split; [lia|].
      destruct (pc s); rewrite ?Htok; done.
  - unfold send. destruct (closed (results s)).
    { intros [= <-]. by apply (provenance_same w s). }
    case_decide; [|done]. intros [= <-].
    pose proof (total_insert consumed _ _ _ {| wpc := WRange; consumed := consumed wk; emitted := S (emitted wk) |} Hi) as Tc.
    pose proof (total_insert requesting _ _ _ {| wpc := WRange; consumed := consumed wk; emitted := S (emitted wk) |} Hi) as Tr.
    unfold requesting in Tr at 2. rewrite Hpc in Tr. simpl in Tc, Tr.
    assert (total consumed (<[i:={| wpc := WRange; consumed := consumed wk; emitted := S (emitted wk) |}]> (pool s)) = total consumed (pool s)) as Ec by lia.
    destruct Hprov. open_provenance; rewrite ?Ec; try done.
    * by apply Forall_insert.
    * lia.
Qed.

(** Events that are neither a subscribe request nor a token request and
    serve the run change nothing else of the provenance. *)
Lemma provenance_events w s s' evs :
  pc s' = pc s → assets s' = assets s → source s' = source s →
  work s' = work s → pool s' = pool s →
  files (sys s') = files (sys s) → events (sys s') = evs ++ events (sys s) →
  occurrences is_subscribe evs = 0 → occurrences is_token_request evs = 0 →
  Forall (sanctioned w (source s) (assets s)) evs →
  (exited s' = None → exited s = None) →
  provenance w s → provenance w s'.
Proof.
  intros Hpc Ha Hs Hw Hp Hf He Hsub Htok Hall Hex [].
  constructor; unfold remaining in *;
    rewrite ?Hpc, ?Ha, ?Hs, ?Hw, ?Hp, ?Hf, ?He, ?occurrences_app, ?Hsub, ?Htok;
    try done.
  - by apply Forall_app.
  - destruct prov_token0 as [? Hm]. split; [done|].
    destruct (pc s); try done. auto.
Qed.

Lemma main_step_provenance w s s' :
  invariant w s → exited s = None → provenance w s →
  main_step w s = Some s' → provenance w s'.
Proof.
  intros Hinv Hex Hprov. unfold main_step.
  destruct (pc s) as [|i| |sp cred|sp tk|sp tk l| | |] eqn:Hpc.
  - (* start *)
    pose proof (inv_pool _ _ Hinv) as Hpool. rewrite Hpc in Hpool.
    destruct (inv_quiet _ _ Hinv) as [Hfiles Hquiet]; [by rewrite Hpool|].
    pose proof (prov_token _ _ Hprov) as [_ Htok]. rewrite Hpc in Htok.
    assert (∀ m, provenance w (println m s)) as Hprint.
    { intros m. apply (provenance_events w s _ [EvPrintln m]); try done.
      by repeat constructor. }
    destruct (args w) as [|arg0 [|arg1 [|]]];
      try (intros [= <-];
           apply (provenance_events w s _
                    [EvPrintln (MsgText "Example ./binaryname 12 ./sourcefile.txt");
                     EvPrintln (MsgText "Provide arguments.")]);
           try done; by repeat constructor).
    destruct (readFile (read_error w) arg1 (sys s)) as [lines [e|]] eqn:Hread.
    { intros [= <-].
      apply (provenance_events w s _ [EvPrintln (MsgError e)]); try done.
      by repeat constructor. }
    destruct (Atoi arg0).
    + intros [= <-]. constructor; unfold remaining; simpl; rewrite ?Hpool; try done.
      * eapply Forall_impl; [exact Hquiet|]. intros e. apply startup_sanctioned.
      * intros q _ _ _. by rewrite Hfiles.
      * rewrite (startup_occurrences _ Hquiet). simpl. lia.
      * split; [lia|done].
    + intros [= <-].
      apply (provenance_events w s _ [EvPrintln (MsgError (ErrAtoi arg0))]); try done.
      by repeat constructor.
  - (* spawning *)
    case_decide; intros [= <-]; destruct Hprov; unfold remaining in *; rewrite Hpc in *.
    + constructor; unfold remaining; simpl;
        rewrite ?Hpc, ?total_app; simpl; rewrite ?Nat.add_0_r; try done.
      apply Forall_app. split; [done|]. by repeat constructor.
    + constructor; unfold remaining; simpl; rewrite ?Hpc; try done.
  - (* secrets *)
    destruct (secrets w) as [[sp' cred']|] eqn:Hsec; intros [= <-].
    + destruct Hprov; unfold remaining in *; rewrite Hpc in *.
      constructor; unfold remaining; simpl; rewrite ?Hpc; try done.
      split; [by destruct prov_token0|]. intros _. by destruct prov_token0.
    + apply (provenance_events w s _ [EvFatal]); try done. by repeat constructor.
  - (* token *)
    destruct (getToken (token_service w) cred (sys s)) as [o r] eqn:Htok.
    destruct (getToken_events _ _ _ _ _ Htok)
      as (Hfiles & Hok & evs & Hevs & Hone & Hnone & Hstart).
    destruct Hprov; unfold remaining in *; rewrite Hpc in *.
    destruct prov_token0 as [_ Hzero]. specialize (Hzero Hex).
    assert (Forall (sanctioned w (source s) (assets s)) evs) as Hsan.
    { eapply Forall_impl; [exact Hstart|]. intros e. apply startup_sanctioned. }
    destruct r as [e|tk']; intros [= <-].
    + constructor; unfold remaining; simpl;
        rewrite ?Hpc, ?Hfiles, ?Hevs, ?occurrences_app, ?Hnone; simpl; try done.
      * apply Forall_cons. split; [done|]. by apply Forall_app.
      * split; [lia|done].
    + constructor; unfold remaining; simpl;
        rewrite ?Hpc, ?Hfiles, ?Hevs, ?occurrences_app, ?Hnone; simpl; try done.
      * split; [by exists cred|]. by apply Hok.
      * by apply Forall_app.
      * split; [lia|done].
  - (* starting the closer *)
    intros [= <-]. destruct Hprov; unfold remaining in *; rewrite Hpc in *.
    constructor; unfold remaining; simpl; rewrite ?Hpc; try done.
  - (* enqueueing *)
    destruct l as [|imei rest].
    { intros [= <-]. destruct Hprov; unfold remaining in *; rewrite Hpc in *.
      constructor; unfold remaining; simpl; rewrite ?Hpc; try done.
      destruct prov_secrets0 as [[cred Hsec] _]. by rewrite Hsec. }
    unfold send. destruct (closed (work s)).
    { intros [= <-]. by apply (provenance_same w s). }
    case_decide; [|done]. intros [= <-].
    destruct Hprov; unfold remaining in *; rewrite Hpc in *.
    pose proof prov_secrets0 as [[cred Hsec] Htk].
    assert (imei ∈ assets s) as Hin.
    { rewrite <- (take_drop (total consumed (pool s)) (assets s)), prov_order0.
      rewrite !elem_of_app. right. right. by left. }
    constructor; unfold remaining; simpl; rewrite ?Hpc; try done.
    + rewrite prov_order0, fmap_app, <- app_assoc. done.
    + apply Forall_app. split; [done|]. apply Forall_cons. split; [|by apply Forall_nil].
      by exists sp, cred, tk.
  - (* closing the job channel *)
    unfold close. destruct (closed (work s)); intros [= <-].
    { by apply (provenance_same w s). }
    destruct Hprov; unfold remaining in *; rewrite Hpc in *.
    constructor; unfold remaining; simpl; rewrite ?Hpc; try done.
  - (* draining *)
    unfold recv. destruct (buf (results s)) as [|r rest].
    + destruct (closed (results s)); [|done]. intros [= <-].
      destruct Hprov; unfold remaining in *; rewrite Hpc in *.
      constructor; unfold remaining; simpl; rewrite ?Hpc; try done.
    + intros [= <-]. destruct (err r) as [e|].
      * apply (provenance_events w s _ [EvPrintln (MsgValue (value r)); EvLog e]);
          try done. by repeat constructor.
      * apply (provenance_events w s _ [EvPrintln (MsgValue (value r))]);
          try done. by repeat constructor.
  - (* done *)
    intros [= <-].
    apply (provenance_events w s _ [EvPrintln done_marker]); try done.
    by repeat constructor.
Qed.

Lemma step_provenance w l s s' :
  invariant w s → provenance w s → step w l s = Some s' → provenance w s'.
Proof.
  unfold step. intros Hinv Hprov. destruct (exited s) eqn:Hex; [done|].
  destruct l; eauto using main_step_provenance, closer_step_provenance,
    doWork_step_provenance.
Qed.

Lemma exec_provenance w sched s s' :
  invariant w s → provenance w s → exec w sched s = Some s' → provenance w s'.
Proof.
  revert s. induction sched as [|l sched IH]; intros s Hinv Hprov; simpl.
  - by intros [= <-].
  - destruct (step w l s) as [s1|] eqn:Hstep; [|done].
    eauto using step_invariant, step_provenance.
Qed.

Lemma run_provenance w sched s :
  exec w sched (init w) = Some s → provenance w s.
Proof. apply exec_provenance; [apply init_invariant | apply init_provenance]. Qed.

(** ** More on the run of [main] *)

Lemma exec_leaves_start w sched s s' :
  pc s ≠ MStart → exec w sched s = Some s' → pc s' ≠ MStart.
Proof.
  revert s. induction sched as [|l sched IH]; intros s Hpc; simpl.
  - by intros [= <-].
  - destruct (step w l s) as [s1|] eqn:Hstep; [|done].
    eauto using step_leaves_start.
Qed.

Lemma run_at_start w sched s :
  exec w sched (init w) = Some s → pc s = MStart →
  (sched = [] ∧ s = init w) ∨ (sched = [LMain] ∧ main_step w (init w) = Some s).
Proof.
  destruct sched as [|l sched]; [intros [= <-]; by left|].
  change (exec w (l :: sched) (init w))
    with (match step w l (init w) with
          | Some s1 => exec w sched s1
          | None => None
          end).
  destruct l; [|done..].
  change (step w LMain (init w)) with (main_step w (init w)).
  destruct (main_step w (init w)) as [s1|] eqn:Hstep; [|done].
  intros Hrun Hpc. right.
  destruct (exited s1) as [r|] eqn:Hex.
  - pose proof Hrun as Hrun'.
    apply exec_exited in Hrun' as ->; [|by rewrite Hex]. by simplify_eq/=.
  - exfalso. eapply exec_leaves_start; [|exact Hrun|exact Hpc].
    revert Hstep Hex. unfold main_step. simpl.
    repeat case_match; intros; by simplify_eq.
Qed.

(** X13: no run panics: whatever the command line, the files, the
    answers of the network and the schedule, the process never sends on
    a closed channel, never closes a channel twice and never brings the
    wait group below zero. *)
Theorem run_never_panics w sched s :
  exec w sched (init w) = Some s → exited s ≠ Some ExitPanic.
Proof.
  intros Hrun Hex. pose proof (inv_exit _ _ (run_invariant _ _ _ Hrun)) as He.
  by rewrite Hex in He.
Qed.

Lemma run_never_panics_witness :
  exec world_one sched_one_worker (init world_one)
  = Some (run_of world_one sched_one_worker) ∧
  exited (run_of world_one sched_one_worker) ≠ Some ExitPanic.
Proof.
  assert (exec world_one sched_one_worker (init world_one)
          = Some (run_of world_one sched_one_worker)) as Hrun
    by (vm_compute; reflexivity).
  split; [exact Hrun|].
  apply (run_never_panics world_one sched_one_worker _ Hrun).
Defined.

(** X14: the pool never holds more workers than the count asks for, and
    exactly that many (none for a count below 1) once [main] is past its
    loop; the wait group's counter is at every moment the number of
    workers that have not returned. *)
Theorem pool_and_wait_group w sched s :
  exec w sched (init w) = Some s →
  (Z.of_nat (length (pool s)) ≤ Z.max 0 (workers s))%Z ∧
  match pc s with
  | MStart | MSpawn _ => True
  | _ => Z.of_nat (length (pool s)) = Z.max 0 (workers s)
  end ∧
  wg s = Z.of_nat (total running (pool s)) ∧
  (0 ≤ wg s ≤ Z.of_nat (length (pool s)))%Z.
Proof.
  intros Hrun. destruct (run_invariant _ _ _ Hrun).
  assert (total running (pool s) ≤ length (pool s)) as Hle.
  { clear. unfold total. induction (pool s) as [|wk p IH]; simpl; [done|].
    pose proof (running_le_1 wk). lia. }
  split_and!; try done; try lia.
  - destruct (pc s); try lia. rewrite inv_pool0. simpl. lia.
  - by destruct (pc s).
Qed.

Lemma pool_and_wait_group_witness :
  exec world_no_token sched_token_failure (init world_no_token)
  = Some (run_of world_no_token sched_token_failure) ∧
  (Z.of_nat (length (pool (run_of world_no_token sched_token_failure)))
   ≤ Z.max 0 (workers (run_of world_no_token sched_token_failure)))%Z ∧
  match pc (run_of world_no_token sched_token_failure) with
  | MStart | MSpawn _ => True
  | _ => Z.of_nat (length (pool (run_of world_no_token sched_token_failure)))
         = Z.max 0 (workers (run_of world_no_token sched_token_failure))
  end ∧
  wg (run_of world_no_token sched_token_failure)
  = Z.of_nat (total running (pool (run_of world_no_token sched_token_failure))) ∧
  (0 ≤ wg (run_of world_no_token sched_token_failure)
   ≤ Z.of_nat (length (pool (run_of world_no_token sched_token_failure))))%Z.
Proof.
  assert (exec world_no_token sched_token_failure (init world_no_token)
          = Some (run_of world_no_token sched_token_failure)) as Hrun
    by (vm_compute; reflexivity).
  split; [exact Hrun|].
  apply (pool_and_wait_group world_no_token sched_token_failure _ Hrun).
Defined.

(** X15: the channels are closed in order. [work] is closed only when
    every identifier has been sent to it; a worker returns only when
    [work] is closed and drained; [results] is closed only when every
    worker has returned, so that every result sent is in its buffer or
    already printed. *)
Theorem channels_close_in_order w sched s :
  exec w sched (init w) = Some s →
  (closed (work s) = true → enqueued s = length (assets s)) ∧
  (∀ wk, wk ∈ pool s → wpc wk = WReturned →
     closed (work s) = true ∧ buf (work s) = []) ∧
  (closed (results s) = true →
     Forall (λ wk, wpc wk = WReturned) (pool s) ∧
     total emitted (pool s) = length (buf (results s)) + delivered s).
Proof.
  intros Hrun. destruct (run_invariant _ _ _ Hrun). split_and!.
  - intros Hcl. rewrite Hcl in inv_work_closed0. unfold enqueued.
    by destruct (pc s).
  - intros wk Hin Hret. destruct inv_returned0 as [Hall|]; [|done].
    rewrite Forall_forall in Hall. specialize (Hall wk Hin).
    unfold running in Hall. by rewrite Hret in Hall.
  - intros Hcl. split; [|done].
    assert (wg s = 0%Z) as Hwg
      by (destruct (closer s) as [[]|]; intuition congruence).
    assert (total running (pool s) = 0) as Hzero by lia.
    apply total_zero in Hzero. eapply Forall_impl; [exact Hzero|].
    intros wk Hwk. unfold running in Hwk. by destruct (wpc wk).
Qed.

Lemma channels_close_in_order_witness :
  exec world_one sched_one_worker (init world_one)
  = Some (run_of world_one sched_one_worker) ∧
  closed (results (run_of world_one sched_one_worker)) = true ∧
  (closed (work (run_of world_one sched_one_worker)) = true →
   enqueued (run_of world_one sched_one_worker)
   = length (assets (run_of world_one sched_one_worker))) ∧
  (∀ wk, wk ∈ pool (run_of world_one sched_one_worker) → wpc wk = WReturned →
     closed (work (run_of world_one sched_one_worker)) = true ∧
     buf (work (run_of world_one sched_one_worker)) = []) ∧
  (closed (results (run_of world_one sched_one_worker)) = true →
     Forall (λ wk, wpc wk = WReturned) (pool (run_of world_one sched_one_worker)) ∧
     total emitted (pool (run_of world_one sched_one_worker))
     = length (buf (results (run_of world_one sched_one_worker)))
       + delivered (run_of world_one sched_one_worker)).
Proof.
  assert (exec world_one sched_one_worker (init world_one)
          = Some (run_of world_one sched_one_worker)) as Hrun
    by (vm_compute; reflexivity).
  split; [exact Hrun|]. split; [reflexivity|].
  apply (channels_close_in_order world_one sched_one_worker _ Hrun).
Defined.

(** X16: no send ever waits. Whenever [main] stands before a send to
    [work] the channel has room and is open, so the step goes through
    and appends the work item; whenever a worker holds a result, [results]
    has room and is open, so its send goes through. Neither buffer ever
    holds more than the queue file has lines. *)
Theorem sends_never_wait w sched s :
  exec w sched (init w) = Some s →
  exited s = None →
  (∀ sp tk imei rest, pc s = MEnqueue sp tk (imei :: rest) →
     ∃ s', main_step w s = Some s' ∧ exited s' = None ∧
           buf (work s') = buf (work s) ++ [workItem sp tk (source s) imei]) ∧
  (∀ i wk r env, pool s !! i = Some wk → wpc wk = WSend r →
     ∃ s', doWork_step i env s = Some s' ∧ exited s' = None ∧
           buf (results s') = buf (results s) ++ [r]) ∧
  length (buf (work s)) ≤ length (assets s) ∧
  length (buf (results s)) ≤ length (assets s).
Proof.
  intros Hrun Hex. pose proof (run_invariant _ _ _ Hrun) as Hinv.
  pose proof (total_split _ (inv_worker _ _ Hinv)) as Hsplit.
  destruct Hinv. unfold enqueued, delivered in *.
  assert (match pc s with
          | MEnqueue _ _ rest => length (assets s) - length rest
          | MCloseWork | MDrain | MDone => length (assets s)
          | _ => 0
          end ≤ length (assets s)) as Henq by (destruct (pc s); lia).
  split_and!; try lia.
  - intros sp tk imei rest Hpc.
    pose proof (inv_rest0 _ _ _ Hpc) as Hlen. simpl in Hlen.
    destruct inv_start0
      as [|(? & ? & ? & _ & _ & _ & _ & _ & _ & Hcap & _)]; [congruence|].
    rewrite Hpc in *. simpl in *. unfold main_step, send.
    rewrite Hpc, inv_work_closed0, decide_True by lia.
    eexists. split; [done|]. by split.
  - intros i wk r env Hi Hpc.
    pose proof (total_lookup pending _ _ _ Hi) as Hpend.
    pose proof (total_lookup running _ _ _ Hi) as Hrunning.
    unfold pending in Hpend at 1. unfold running in Hrunning at 1.
    rewrite Hpc in Hpend, Hrunning.
    destruct inv_start0
      as [Hs|(? & ? & ? & _ & _ & _ & _ & _ & _ & _ & Hcap)];
      [rewrite Hs in inv_pool0; by rewrite inv_pool0 in Hi|].
    assert (closed (results s) = false) as Hopen.
    { destruct (closed (results s)) eqn:Hcl; [|done].
      destruct (closer s) as [[]|]; intuition (congruence || lia). }
    unfold doWork_step, send. rewrite Hi, Hpc, Hopen.
    rewrite decide_True by lia. eexists. split; [done|]. by split.
Qed.

Lemma sends_never_wait_witness :
  exec world_one (replicate 6 LMain) (init world_one)
  = Some (run_of world_one (replicate 6 LMain)) ∧
  ∃ s', main_step world_one (run_of world_one (replicate 6 LMain)) = Some s' ∧
        exited s' = None ∧
        buf (work s')
        = buf (work (run_of world_one (replicate 6 LMain)))
          ++ [workItem subscribe_h "t" "q.txt" "A"].
Proof.
  assert (exec world_one (replicate 6 LMain) (init world_one)
          = Some (run_of world_one (replicate 6 LMain))) as Hrun
    by (vm_compute; reflexivity).
  split; [exact Hrun|].
  destruct (sends_never_wait world_one (replicate 6 LMain) _ Hrun)
    as (Hmain & _); [reflexivity|].
  exact (Hmain subscribe_h "t" "A" ["B"] eq_refl).
Defined.

Lemma exec_first w : exec w [LMain] (init w) = main_step w (init w).
Proof.
  change (exec w [LMain] (init w))
    with (match main_step w (init w) with
          | Some s' => Some s'
          | None => None
          end).
  by destruct (main_step w (init w)).
Qed.

(** When the first step of [main] ends the process, that step is the
    whole run. *)
Lemma first_step_exits w s1 sched s :
  exec w [LMain] (init w) = Some s1 → is_Some (exited s1) →
  exec w sched (init w) = Some s →
  sched = [] ∨ sched = [LMain] ∧ s = s1.
Proof.
  rewrite exec_first. intros Hfirst Hex.
  destruct sched as [|l sched]; [by left|]. intros Hrun. right. revert Hrun.
  change (exec w (l :: sched) (init w))
    with (match step w l (init w) with
          | Some s' => exec w sched s'
          | None => None
          end).
  destruct l; [|done..].
  change (step w LMain (init w)) with (main_step w (init w)).
  revert Hfirst. destruct (main_step w (init w)) as [s'|]; [|done].
  intros [= ->] Hrun.
  pose proof (exec_exited _ _ _ _ Hex Hrun) as ->. by simplify_eq/=.
Qed.

(** X17: a start-up error ends the run at its first step, before any
    goroutine is started and before any HTTP call, with the files as
    they were. A command line that has not two arguments makes the
    first step print the two usage lines and return; otherwise a queue
    file that [readFile] returns an error for makes it print that error
    and return, whatever the count argument is; otherwise a count that
    [Atoi] rejects makes it print that error and return. After such a
    first step nothing moves: the step is the whole run. And a run that
    has ended for one of the three reasons is that one step. *)
Theorem start_up_errors_abort_at_once w :
  ((∀ arg0 arg1, args w ≠ [arg0; arg1]) →
     ∃ s, exec w [LMain] (init w) = Some s ∧ exited s = Some ExitUsage ∧
          events (sys s)
          = [EvPrintln (MsgText "Example ./binaryname 12 ./sourcefile.txt");
             EvPrintln (MsgText "Provide arguments.")] ∧
          files (sys s) = disk w ∧ pool s = [] ∧ closer s = None) ∧
  (∀ arg0 arg1 lines e,
     args w = [arg0; arg1] →
     readFile (read_error w) arg1 (sys (init w)) = (lines, Some e) →
     ∃ s, exec w [LMain] (init w) = Some s ∧ exited s = Some ExitReadFile ∧
          events (sys s) = [EvPrintln (MsgError e)] ∧
          files (sys s) = disk w ∧ pool s = [] ∧ closer s = None) ∧
  (∀ arg0 arg1 lines,
     args w = [arg0; arg1] →
     readFile (read_error w) arg1 (sys (init w)) = (lines, None) →
     Atoi arg0 = None →
     ∃ s, exec w [LMain] (init w) = Some s ∧ exited s = Some ExitAtoi ∧
          events (sys s) = [EvPrintln (MsgError (ErrAtoi arg0))] ∧
          files (sys s) = disk w ∧ pool s = [] ∧ closer s = None) ∧
  (∀ s1 sched s,
     exec w [LMain] (init w) = Some s1 → is_Some (exited s1) →
     exec w sched (init w) = Some s →
     sched = [] ∨ sched = [LMain] ∧ s = s1) ∧
  (∀ sched s r,
     exec w sched (init w) = Some s → exited s = Some r →
     r = ExitUsage ∨ r = ExitReadFile ∨ r = ExitAtoi →
     sched = [LMain]).
Proof.
  split_and!.
  - intros Hargs. rewrite exec_first. unfold main_step. simpl.
    destruct (args w) as [|arg0 [|arg1 [|]]] eqn:Ha;
      [| |by destruct (Hargs arg0 arg1)|]; by eexists.
  - intros arg0 arg1 lines e Hargs Hread. rewrite exec_first.
    unfold main_step. simpl. rewrite Hargs.
    change {| files := disk w; events := [] |} with (sys (init w)).
    rewrite Hread. by eexists.
  - intros arg0 arg1 lines Hargs Hread Hatoi. rewrite exec_first.
    unfold main_step. simpl. rewrite Hargs.
    change {| files := disk w; events := [] |} with (sys (init w)).
    rewrite Hread, Hatoi. by eexists.
  - intros s1 sched s. apply first_step_exits.
  - intros sched s r Hrun Hex Hr.
    assert (pc s = MStart) as Hpc.
    { pose proof (inv_exit _ _ (run_invariant _ _ _ Hrun)) as He.
      rewrite Hex in He. destruct Hr as [->| [->| ->]]; by destruct He. }
    destruct (run_at_start _ _ _ Hrun Hpc) as [[_ ->]|[-> _]]; done.
Qed.

Lemma start_up_errors_abort_at_once_witness :
  ∃ s, exec world_bad_count [LMain] (init world_bad_count) = Some s ∧
       exited s = Some ExitAtoi ∧
       events (sys s) = [EvPrintln (MsgError (ErrAtoi "eight"))] ∧
       files (sys s) = disk world_bad_count ∧ pool s = [] ∧ closer s = None.
Proof.
  destruct (start_up_errors_abort_at_once world_bad_count)
    as (_ & _ & Hcount & _).
  apply (Hcount "eight" "q.txt" ["A"; "B"]); reflexivity.
Defined.

(** X18: the work items travel in the order of the queue file. At every
    moment the lines of the file are, in order: those whose work item a
    worker has received, those whose work item waits in [work], and
    those [main] has still to send. Every work item in the channel or in
    a worker's hands was built for a line of the file from the secrets'
    subscribe settings, the token the endpoint gave and the path of the
    queue file. *)
Theorem work_items_in_file_order w sched s :
  exec w sched (init w) = Some s →
  assets s = take (total consumed (pool s)) (assets s)
             ++ (Imei <$> buf (work s)) ++ remaining s ∧
  (∀ p, p ∈ buf (work s) ∨ (∃ wk, wk ∈ pool s ∧ wpc wk = WRequest p) →
     ∃ sp cred tk,
       secrets w = Some (sp, cred) ∧ token_service w = TokenOk tk ∧
       Imei p ∈ assets s ∧ p = workItem sp tk (source s) (Imei p)).
Proof.
  intros Hrun. destruct (run_provenance _ _ _ Hrun). split.
  - by rewrite <- prov_order0, take_drop.
  - intros p [Hin|(wk & Hin & Hpc)].
    + rewrite Forall_forall in prov_queued0. by apply prov_queued0.
    + rewrite Forall_forall in prov_held0. specialize (prov_held0 wk Hin).
      by rewrite Hpc in prov_held0.
Qed.

Lemma work_items_in_file_order_witness :
  exec world_one (replicate 8 LMain ++ [LWorker 0 ok_json]) (init world_one)
  = Some (run_of world_one (replicate 8 LMain ++ [LWorker 0 ok_json])) ∧
  assets (run_of world_one (replicate 8 LMain ++ [LWorker 0 ok_json]))
  = ["A"] ++ ["B"] ++ [] ∧
  ∃ sp cred tk,
    secrets world_one = Some (sp, cred) ∧ token_service world_one = TokenOk tk ∧
    "B" ∈ assets (run_of world_one (replicate 8 LMain ++ [LWorker 0 ok_json])) ∧
    workItem subscribe_h "t" "q.txt" "B" = workItem sp tk "q.txt" "B".
Proof.
  assert (exec world_one (replicate 8 LMain ++ [LWorker 0 ok_json]) (init world_one)
          = Some (run_of world_one (replicate 8 LMain ++ [LWorker 0 ok_json])))
    as Hrun by (vm_compute; reflexivity).
  split; [exact Hrun|].
  destruct (work_items_in_file_order world_one _ _ Hrun) as [Horder Hitems].
  split; [exact Horder|].
  apply (Hitems (workItem subscribe_h "t" "q.txt" "B")).
  left. vm_compute. by left.
Defined.

(** X19: every effect of a run serves a line of the queue file. A
    subscribe request goes to the URL built from the secrets' base URL
    and a line of the file, and carries the token the endpoint gave; an
    append writes a line of the file to the failure log and to no other
    file; a replacement replaces the queue file named on the command
    line and no other file. The lines of the file are those [readFile]
    returned for it at the start; an event of a run that has not read
    it is a start-up message. *)
Theorem effects_serve_the_queue_file w sched s e :
  exec w sched (init w) = Some s →
  e ∈ events (sys s) →
  match e with
  | EvSubscribe url token =>
      ∃ sp cred imei,
        secrets w = Some (sp, cred) ∧ token_service w = TokenOk token ∧
        imei ∈ assets s ∧
        url = BaseURL sp +:+ "/services/obdstack/v1/assets/" +:+ imei
              +:+ "/subscribe"
  | EvAppend path content => path = failedLog ∧ content ∈ assets s
  | EvReplace path => ∃ arg0, args w = [arg0; path]
  | _ => True
  end ∧
  (startup_event e ∨
   ∃ arg0 arg1 data,
     args w = [arg0; arg1] ∧ disk w !! arg1 = Some data ∧
     assets s = scanLines data).
Proof.
  intros Hrun Hin.
  pose proof (run_invariant _ _ _ Hrun) as Hinv.
  pose proof (prov_events _ _ (run_provenance _ _ _ Hrun)) as Hall.
  rewrite Forall_forall in Hall. specialize (Hall e Hin).
  assert (startup_event e ∨
          ∃ arg0 data, args w = [arg0; source s] ∧
                       disk w !! source s = Some data ∧
                       assets s = scanLines data) as Hfile.
  { destruct (inv_start _ _ Hinv)
      as [Hpc|(arg0 & arg1 & data & Hargs & Hdisk & _ & _ & Ha & Hs & _)].
    - left. pose proof (inv_pool _ _ Hinv) as Hpool. rewrite Hpc in Hpool.
      destruct (inv_quiet _ _ Hinv) as [_ Hquiet]; [by rewrite Hpool|].
      rewrite Forall_forall in Hquiet. by apply Hquiet.
    - right. exists arg0, data. by rewrite Hs. }
  split.
  - destruct e as [| | | |url token|path content|path|]; try done.
    + destruct Hall as (p & (sp & cred & tk & Hsec & Htk & Hp & Heq) & -> & ->).
      exists sp, cred, (Imei p). split_and!; [done| |done|]; by rewrite Heq.
    + simpl in Hall. subst path.
      destruct Hfile as [[]|(arg0 & data & Hargs & _)]. by exists arg0.
  - destruct Hfile as [?|(arg0 & data & ? & ? & ?)]; [by left|right].
    by exists arg0, (source s), data.
Qed.

Lemma effects_serve_the_queue_file_witness :
  exec world_one sched_one_worker (init world_one)
  = Some (run_of world_one sched_one_worker) ∧
  EvAppend failedLog "B" ∈ events (sys (run_of world_one sched_one_worker)) ∧
  (failedLog = failedLog ∧ "B" ∈ assets (run_of world_one sched_one_worker)) ∧
  (startup_event (EvAppend failedLog "B") ∨
   ∃ arg0 arg1 data,
     args world_one = [arg0; arg1] ∧ disk world_one !! arg1 = Some data ∧
     assets (run_of world_one sched_one_worker) = scanLines data).
Proof.
  assert (exec world_one sched_one_worker (init world_one)
          = Some (run_of world_one sched_one_worker)) as Hrun
    by (vm_compute; reflexivity).
  assert (EvAppend failedLog "B" ∈ events (sys (run_of world_one sched_one_worker)))
    as Hin by (vm_compute; repeat (by left) || right).
  split; [exact Hrun|]. split; [exact Hin|].
  apply (effects_serve_the_queue_file world_one sched_one_worker _
           (EvAppend failedLog "B") Hrun Hin).
Defined.

(** X20: a run leaves every file alone but three: whatever the schedule
    and the answers, a file that is neither the failure log nor the
    queue file named on the command line nor that path followed by
    [~tmp] holds at every moment what it held at the start; and with a
    command line that has not two arguments that is so for every file
    but the failure log. *)
Theorem run_touches_three_files w sched s q :
  exec w sched (init w) = Some s →
  q ≠ failedLog →
  (∀ arg0 arg1, args w = [arg0; arg1] → q ≠ arg1 ∧ q ≠ arg1 +:+ "~tmp") →
  files (sys s) !! q = disk w !! q.
Proof.
  intros Hrun Hlog Hq.
  pose proof (run_invariant _ _ _ Hrun) as Hinv.
  destruct (inv_start _ _ Hinv)
    as [Hpc|(arg0 & arg1 & data & Hargs & _ & _ & _ & _ & Hs & _)].
  - pose proof (inv_pool _ _ Hinv) as Hpool. rewrite Hpc in Hpool.
    destruct (inv_quiet _ _ Hinv) as [-> _]; [by rewrite Hpool|done].
  - destruct (Hq _ _ Hargs) as [Hne Htmp].
    apply (prov_files _ _ (run_provenance _ _ _ Hrun)); by rewrite ?Hs.
Qed.

Lemma run_touches_three_files_witness :
  exec world_one sched_one_worker (init world_one)
  = Some (run_of world_one sched_one_worker) ∧
  files (sys (run_of world_one sched_one_worker)) !! ".env"
  = disk world_one !! ".env".
Proof.
  assert (exec world_one sched_one_worker (init world_one)
          = Some (run_of world_one sched_one_worker)) as Hrun
    by (vm_compute; reflexivity).
  split; [exact Hrun|].
  apply (run_touches_three_files world_one sched_one_worker _ ".env" Hrun).
  - discriminate.
  - intros arg0 arg1 [= _ <-]. split; discriminate.
Defined.

(** X21: no work item is tried twice. The subscribe requests made so
    far, together with the work items workers hold without having made
    their request, are at most the work items received; those, with the
    work items waiting in [work], are the work items [main] has sent;
    and those with the lines [main] has still to send are the lines of
    the queue file. So a run makes at most as many subscribe requests as
    the file has lines. *)
Theorem at_most_one_request_per_line w sched s :
  exec w sched (init w) = Some s →
  occurrences is_subscribe (events (sys s)) + total requesting (pool s)
  ≤ total consumed (pool s) ∧
  total consumed (pool s) + length (buf (work s)) = enqueued s ∧
  enqueued s + length (remaining s) = length (assets s) ∧
  occurrences is_subscribe (events (sys s)) ≤ length (assets s).
Proof.
  intros Hrun.
  pose proof (run_invariant _ _ _ Hrun) as Hinv.
  pose proof (prov_attempts _ _ (run_provenance _ _ _ Hrun)) as Hatt.
  pose proof (inv_work _ _ Hinv) as Hwork.
  pose proof (inv_rest _ _ Hinv) as Hrest.
  assert (enqueued s + length (remaining s) = length (assets s)) as Hsum.
  { unfold enqueued, remaining. destruct (pc s) eqn:Hpc; simpl; try lia.
    specialize (Hrest _ _ _ eq_refl). lia. }
  split_and!; lia.
Qed.

Lemma at_most_one_request_per_line_witness :
  exec world_one sched_one_worker (init world_one)
  = Some (run_of world_one sched_one_worker) ∧
  occurrences is_subscribe (events (sys (run_of world_one sched_one_worker))) = 2 ∧
  occurrences is_subscribe (events (sys (run_of world_one sched_one_worker)))
  ≤ length (assets (run_of world_one sched_one_worker)).
Proof.
  assert (exec world_one sched_one_worker (init world_one)
          = Some (run_of world_one sched_one_worker)) as Hrun
    by (vm_compute; reflexivity).
  split; [exact Hrun|]. split; [reflexivity|].
  apply (at_most_one_request_per_line world_one sched_one_worker _ Hrun).
Defined.

(** X22: the token is asked for at most once in a run, never before the
    workers are started and the secrets are loaded, and not at all in a
    run that ends for a start-up error or for missing secrets; and a
    run that has made a subscribe request has made its token request. *)
Theorem token_requested_once w sched s :
  exec w sched (init w) = Some s →
  occurrences is_token_request (events (sys s)) ≤ 1 ∧
  match pc s with
  | MStart | MSpawn _ | MSecrets =>
      occurrences is_token_request (events (sys s)) = 0
  | _ => True
  end ∧
  (∀ r, exited s = Some r → r ≠ ExitToken → r ≠ ExitDone →
     occurrences is_token_request (events (sys s)) = 0) ∧
  (0 < occurrences is_subscribe (events (sys s)) →
   occurrences is_token_request (events (sys s)) = 1).
Proof.
  intros Hrun.
  pose proof (run_invariant _ _ _ Hrun) as Hinv.
  pose proof (run_provenance _ _ _ Hrun) as Hprov.
  destruct (prov_token _ _ Hprov) as [Hone Hzero].
  assert (∀ evs, EvTokenRequest ∈ evs → 0 < occurrences is_token_request evs)
    as Hocc.
  { clear. induction evs as [|e evs IH]; [by intros ?%elem_of_nil|].
    intros [<-|Hin]%elem_of_cons; simpl; [lia|]. specialize (IH Hin). lia. }
  split_and!; [done| |..].
  - by destruct (pc s).
  - intros r Hex Htok Hdone. pose proof (inv_exit _ _ Hinv) as He.
    rewrite Hex in He. destruct r; try done; destruct He as [Hpc _];
      by rewrite Hpc in Hzero.
  - intros Hsub.
    pose proof (prov_attempts _ _ Hprov) as Hatt.
    pose proof (inv_work _ _ Hinv) as Hwork.
    pose proof (inv_token _ _ Hinv) as Htok.
    unfold enqueued in Hwork.
    destruct (pc s); try lia; destruct Htok as [_ Hin%Hocc]; lia.
Qed.

Lemma token_requested_once_witness :
  exec world_one sched_one_worker (init world_one)
  = Some (run_of world_one sched_one_worker) ∧
  0 < occurrences is_subscribe (events (sys (run_of world_one sched_one_worker))) ∧
  occurrences is_token_request (events (sys (run_of world_one sched_one_worker))) = 1.
Proof.
  assert (exec world_one sched_one_worker (init world_one)
          = Some (run_of world_one sched_one_worker)) as Hrun
    by (vm_compute; reflexivity).
  assert (0 < occurrences is_subscribe
                (events (sys (run_of world_one sched_one_worker)))) as Hsub
    by (vm_compute; lia).
  split; [exact Hrun|]. split; [exact Hsub|].
  by apply (token_requested_once world_one sched_one_worker _ Hrun).
Defined.

(** X23: without secrets nothing is dispatched. When the environment
    file cannot be loaded the run never asks for a token and never
    starts the closing goroutine; no file is written and no request
    made; the workers already started have received nothing and none of
    them can move, the job channel being empty and open; the run does
    not reach its end, and once it has stopped on the missing secrets
    all the workers the count asks for have been started. *)
Theorem missing_secrets_abort w sched s :
  secrets w = None →
  exec w sched (init w) = Some s →
  ¬ dispatching (pc s) ∧ closer s = None ∧
  occurrences is_token_request (events (sys s)) = 0 ∧
  buf (work s) = [] ∧
  Forall (λ wk, wpc wk = WRange ∧ consumed wk = 0 ∧ emitted wk = 0) (pool s) ∧
  (∀ i env, doWork_step i env s = None) ∧
  files (sys s) = disk w ∧
  Forall startup_event (events (sys s)) ∧
  exited s ≠ Some ExitDone ∧ exited s ≠ Some ExitToken ∧
  (exited s = Some ExitFatal →
     Z.of_nat (length (pool s)) = Z.max 0 (workers s)).
Proof.
  intros Hsec Hrun.
  pose proof (run_invariant _ _ _ Hrun) as Hinv.
  pose proof (run_provenance _ _ _ Hrun) as Hprov.
  assert (match pc s with
          | MStart | MSpawn _ | MSecrets => True
          | _ => False
          end) as Hpc.
  { pose proof (prov_secrets _ _ Hprov) as Hs.
    destruct (pc s); try done; rewrite Hsec in Hs; try done;
      try (by destruct Hs as [[? ?] _]); by apply is_Some_None in Hs. }
  assert (¬ dispatching (pc s)) as Hnd
    by (destruct (pc s); simpl in *; tauto).
  assert (∀ sp tk, pc s ≠ MGo sp tk) as Hgo by (by destruct (pc s)).
  destruct (idle_pool _ _ Hinv Hnd Hgo) as (Hbuf & Hpool & Hfiles & Hevs).
  pose proof (inv_exit _ _ Hinv) as Hexit.
  split_and!; try done.
  - pose proof (inv_closer _ _ Hinv) as Hc.
    destruct (closer s) as [[]|]; [exfalso; tauto..|done].
  - destruct (prov_token _ _ Hprov) as [_ Hzero]. by destruct (pc s).
  - intros i env. unfold doWork_step.
    destruct (pool s !! i) as [wk|] eqn:Hi; [|done].
    rewrite Forall_forall in Hpool.
    destruct (Hpool wk) as (-> & _); [by eapply list_elem_of_lookup_2|].
    unfold recv. rewrite Hbuf, (inv_work_closed _ _ Hinv). by destruct (pc s).
  - intros Hex. rewrite Hex in Hexit. destruct Hexit as [He _].
    by rewrite He in Hpc.
  - intros Hex. rewrite Hex in Hexit. destruct Hexit as [(? & ? & He) _].
    by rewrite He in Hpc.
  - intros Hex. rewrite Hex in Hexit. destruct Hexit as [He _].
    pose proof (inv_pool _ _ Hinv) as Hp. by rewrite He in Hp.
Qed.

Lemma missing_secrets_abort_witness :
  exec world_no_secrets (replicate 5 LMain) (init world_no_secrets)
  = Some (run_of world_no_secrets (replicate 5 LMain)) ∧
  exited (run_of world_no_secrets (replicate 5 LMain)) = Some ExitFatal ∧
  length (pool (run_of world_no_secrets (replicate 5 LMain))) = 2 ∧
  ¬ dispatching (pc (run_of world_no_secrets (replicate 5 LMain))) ∧
  closer (run_of world_no_secrets (replicate 5 LMain)) = None ∧
  occurrences is_token_request
    (events (sys (run_of world_no_secrets (replicate 5 LMain)))) = 0 ∧
  buf (work (run_of world_no_secrets (replicate 5 LMain))) = [] ∧
  Forall (λ wk, wpc wk = WRange ∧ consumed wk = 0 ∧ emitted wk = 0)
    (pool (run_of world_no_secrets (replicate 5 LMain))) ∧
  (∀ i env, doWork_step i env (run_of world_no_secrets (replicate 5 LMain)) = None) ∧
  files (sys (run_of world_no_secrets (replicate 5 LMain))) = disk world_no_secrets ∧
  Forall startup_event (events (sys (run_of world_no_secrets (replicate 5 LMain)))) ∧
  exited (run_of world_no_secrets (replicate 5 LMain)) ≠ Some ExitDone ∧
  exited (run_of world_no_secrets (replicate 5 LMain)) ≠ Some ExitToken ∧
  (exited (run_of world_no_secrets (replicate 5 LMain)) = Some ExitFatal →
     Z.of_nat (length (pool (run_of world_no_secrets (replicate 5 LMain))))
     = Z.max 0 (workers (run_of world_no_secrets (replicate 5 LMain)))).
Proof.
  assert (exec world_no_secrets (replicate 5 LMain) (init world_no_secrets)
          = Some (run_of world_no_secrets (replicate 5 LMain))) as Hrun
    by (vm_compute; reflexivity).
  split; [exact Hrun|]. split; [reflexivity|]. split; [reflexivity|].
  apply (missing_secrets_abort world_no_secrets (replicate 5 LMain) _ eq_refl Hrun).
Defined.
